(** * VirtuPiano: the note registry, the input reconciler and the synthesizer

    A shallow embedding of [src/virtu_piano/src/PianoKeyboard.js] (the
    version with the synthesizer, lines 1-287, and the [blackKeyPositions]
    table of the second version) and the properties of the specification
    that are stated about it.

    Modelling conventions.
    - JS numbers that only ever hold small integers (indices, MIDI numbers)
      are [Z]; [findIndex] and [indexOf] keep their [-1] sentinel.
    - Frequencies are real numbers: [Math.pow(2, x)] is [Rpower 2 x], the
      value the ECMAScript definition of [Math.pow] approximates.
    - Layout percentages are exact rationals ([Q]).
    - JS strings are [string]; every character the code tests for is ASCII,
      and a non-ASCII character matches none of the tests in either
      representation.
    - React state is passed explicitly: a handler runs against the state
      committed by the previous event (React flushes the updates of a
      discrete event before the next one is dispatched).
    - The audio backend is available: creating the [AudioContext] and its
      nodes does not fail. *)

From Stdlib Require Import ZArith QArith Reals Lra Lia Ascii String.
From stdpp Require Import gmap strings list.

(** ** Note registry *)

Inductive KeyType := white | black.

#[global] Instance KeyType_eq_dec : EqDecision KeyType.
Proof. solve_decision. Defined.

Record NoteDefinition := {
  note : string;
  label : string;
  key : string;
  type : KeyType
}.

Definition KEYBOARD_NOTE_MAP : list NoteDefinition := [
  {| note := "C4";  label := "C";  key := "Q"; type := white |};
  {| note := "C#4"; label := "C#"; key := "2"; type := black |};
  {| note := "D4";  label := "D";  key := "W"; type := white |};
  {| note := "D#4"; label := "D#"; key := "3"; type := black |};
  {| note := "E4";  label := "E";  key := "E"; type := white |};
  {| note := "F4";  label := "F";  key := "R"; type := white |};
  {| note := "F#4"; label := "F#"; key := "5"; type := black |};
  {| note := "G4";  label := "G";  key := "T"; type := white |};
  {| note := "G#4"; label := "G#"; key := "6"; type := black |};
  {| note := "A4";  label := "A";  key := "Y"; type := white |};
  {| note := "A#4"; label := "A#"; key := "7"; type := black |};
  {| note := "B4";  label := "B";  key := "U"; type := white |}
].

(** ** JS library functions used by the source *)

(** [Array.prototype.findIndex]: the first index whose element satisfies
    the predicate, [-1] when there is none. *)
Fixpoint findIndex_from {A} (p : A → bool) (l : list A) (i : Z) : Z :=
  match l with
  | [] => (-1)%Z
  | x :: l' => if p x then i else findIndex_from p l' (i + 1)%Z
  end.

Definition findIndex {A} (p : A → bool) (l : list A) : Z :=
  findIndex_from p l 0%Z.

(** [Array.prototype.indexOf] on an array of strings (strict equality). *)
Definition indexOf (l : list string) (x : string) : Z :=
  findIndex (String.eqb x) l.

(** [Array.prototype.forEach] with a callback that acts on a state. *)
Definition forEach {A S} (l : list A) (f : A → S → S) (s : S) : S :=
  foldl (λ s x, f x s) s l.

(** Array indexing [a[i]]: [undefined] (here [None]) out of range. *)
Definition at_index {A} (l : list A) (i : Z) : option A :=
  if (i <? 0)%Z then None else l !! Z.to_nat i.

Definition in_range (lo hi : string) (c : ascii) : bool :=
  match lo, hi with
  | String l EmptyString, String h EmptyString =>
      (nat_of_ascii l <=? nat_of_ascii c)%nat && (nat_of_ascii c <=? nat_of_ascii h)%nat
  | _, _ => false
  end.

Definition upper_char (c : ascii) : ascii :=
  if in_range "a" "z" c then ascii_of_nat (nat_of_ascii c - 32) else c.

(** [String.prototype.toUpperCase], on the ASCII letters. *)
Fixpoint toUpperCase (s : string) : string :=
  match s with
  | EmptyString => EmptyString
  | String c s' => String (upper_char c) (toUpperCase s')
  end.

(** [String.prototype.slice(n)]: the string without its first [n]
    characters. *)
Fixpoint slice (n : nat) (s : string) : string :=
  match n, s with
  | O, _ => s
  | S n', String _ s' => slice n' s'
  | S _, EmptyString => EmptyString
  end.

Definition startsWith (s p : string) : bool := String.prefix p s.

Definition digit_value (c : ascii) : Z := Z.of_nat (nat_of_ascii c - 48).

Fixpoint parseInt_from (acc : Z) (s : string) : Z :=
  match s with
  | EmptyString => acc
  | String c s' => parseInt_from (10 * acc + digit_value c)%Z s'
  end.

(** [parseInt(s, 10)] on a string of decimal digits (the source applies it
    to the [\d] capture only). *)
Definition parseInt (s : string) : Z := parseInt_from 0%Z s.

(** ** The regular expression [/^([A-G]#?)(\d)$/]

    A matcher that follows the expression left to right: one character of
    the class [A-G], a greedy optional ["#"] (with the backtracking
    alternative that skips it), one character of [\d], end of input.  The
    result holds the two capture groups. *)

Definition is_A_G (c : ascii) : bool := in_range "A" "G" c.
Definition is_digit (c : ascii) : bool := in_range "0" "9" c.
Definition is_sharp (c : ascii) : bool := bool_decide (c = "#"%char).

Definition take_class (p : ascii → bool) (s : string) : option (string * string) :=
  match s with
  | String c rest => if p c then Some (String c EmptyString, rest) else None
  | EmptyString => None
  end.

Definition at_end (s : string) : bool :=
  match s with EmptyString => true | _ => false end.

Definition digit_then_end (s : string) : option string :=
  match take_class is_digit s with
  | Some (d, rest) => if at_end rest then Some d else None
  | None => None
  end.

Definition match_note (s : string) : option (string * string) :=
  match take_class is_A_G s with
  | None => None
  | Some (letter, r1) =>
      let with_sharp :=
        match take_class is_sharp r1 with
        | Some (sharp, r2) =>
            match digit_then_end r2 with
            | Some d => Some ((letter ++ sharp)%string, d)
            | None => None
            end
        | None => None
        end in
      match with_sharp with
      | Some m => Some m
      | None =>
          match digit_then_end r1 with
          | Some d => Some (letter, d)
          | None => None
          end
      end
  end.

(** ** Note names, MIDI numbers and frequencies *)

Definition notes : list string :=
  ["C"; "C#"; "D"; "D#"; "E"; "F"; "F#"; "G"; "G#"; "A"; "A#"; "B"].

Definition noteNameToMidi (note : string) : Z :=
  match match_note note with
  | None => 60%Z
  | Some (n, octaveS) =>
      let noteIdx := indexOf notes n in
      let octave := parseInt octaveS in
      (12 * (octave + 1) + noteIdx)%Z
  end.

Definition midiToFrequency (midi : Z) : R :=
  (440 * Rpower 2 ((IZR midi - 69) / 12))%R.

Definition noteToFrequency (note : string) : R :=
  let midi := noteNameToMidi note in
  midiToFrequency midi.

Definition codeToKeyChar (code : string) : string :=
  if startsWith code "Key" then slice 3 code
  else if startsWith code "Digit" then slice 5 code
  else "".

Definition getNoteIndexFromKey (k : string) : Z :=
  if at_end k then (-1)%Z
  else
    let upper := toUpperCase k in
    findIndex (λ item, String.eqb (toUpperCase (key item)) upper) KEYBOARD_NOTE_MAP.

(** ** Envelope synthesizer ([useSynth])

    The audio context is the pool of oscillator nodes it has created; a
    node is identified by its position in the pool (object identity in the
    source).  [osc_playing] is true from [osc.start()] until the node stops,
    by [stop()] or at its scheduled stop time.  [oscillators] holds the own
    properties of the object [oscillators.current]. *)

Record Oscillator := {
  osc_note : string;            (* the note captured by the onended closure *)
  osc_type : string;
  osc_frequency : R;
  osc_gain : list (Q * Q);      (* (gain value, seconds after currentTime) *)
  osc_stop_at : Q;              (* scheduled stop, seconds after currentTime *)
  osc_playing : bool
}.

Record Synth := {
  audioCtx : bool;                    (* audioCtxRef.current is set *)
  nodes : list Oscillator;
  oscillators : gmap string nat
}.

Definition initial_synth : Synth :=
  {| audioCtx := false; nodes := []; oscillators := ∅ |}.

(** [oscillators.current] is created by an object literal, so a property
    read also finds what [Object.prototype] provides; all of these values
    are truthy, and none of them has a [stop] method. *)
Definition Object_prototype : list string :=
  ["constructor"; "__proto__"; "hasOwnProperty"; "isPrototypeOf";
   "propertyIsEnumerable"; "toLocaleString"; "toString"; "valueOf";
   "__defineGetter__"; "__defineSetter__"; "__lookupGetter__";
   "__lookupSetter__"].

(** The test [if (oscillators.current[note])]. *)
Definition truthy_at (o : gmap string nat) (note : string) : bool :=
  match o !! note with
  | Some _ => true
  | None => bool_decide (note ∈ Object_prototype)
  end.

Definition getCtx (s : Synth) : Synth :=
  if audioCtx s then s
  else {| audioCtx := true; nodes := nodes s; oscillators := oscillators s |}.

Definition envelope : list (Q * Q) :=
  [(0, 0); (23 # 100, 1 # 100); (18 # 100, 18 # 100); (0, 55 # 100)]%Q.

Definition createOscillator (note : string) (freq : R) : Oscillator :=
  {| osc_note := note; osc_type := "triangle"; osc_frequency := freq;
     osc_gain := envelope; osc_stop_at := (62 # 100)%Q; osc_playing := true |}.

Definition play (note : string) (s : Synth) : Synth :=
  let s := getCtx s in
  let freq := noteToFrequency note in
  if truthy_at (oscillators s) note then s
  else
    let osc := createOscillator note freq in
    {| audioCtx := audioCtx s;
       nodes := nodes s ++ [osc];
       oscillators := <[note := length (nodes s)]> (oscillators s) |}.

(** The node stops sounding. *)
Definition silence (o : Oscillator) : Oscillator :=
  {| osc_note := osc_note o; osc_type := osc_type o;
     osc_frequency := osc_frequency o; osc_gain := osc_gain o;
     osc_stop_at := osc_stop_at o; osc_playing := false |}.

(** [osc.stop()] on a started node stops it at once, also when a stop time
    was scheduled before (the last call to [stop] is the one applied). *)
Definition stop (note : string) (s : Synth) : Synth :=
  if truthy_at (oscillators s) note then
    {| audioCtx := audioCtx s;
       nodes :=
         match oscillators s !! note with
         | Some id => alter silence id (nodes s)     (* osc.stop() *)
         | None => nodes s        (* inherited value: the TypeError is caught *)
         end;
       oscillators := delete note (oscillators s) |}
  else s.

(** The [ended] event of node [id]: the node no longer sounds (it was
    stopped, or it reached its scheduled stop time) and its [onended]
    handler runs. *)
Definition onended (id : nat) (s : Synth) : option Synth :=
  osc ← nodes s !! id;
  Some {| audioCtx := audioCtx s;
          nodes := alter silence id (nodes s);
          oscillators :=
            if bool_decide (oscillators s !! osc_note osc = Some id)
            then delete (osc_note osc) (oscillators s)
            else oscillators s |}.

(** The voices of a note that are sounding. *)
Definition live_voices (s : Synth) (note : string) : list Oscillator :=
  filter (λ o, osc_playing o = true ∧ osc_note o = note) (nodes s).

Inductive synth_step : Synth → Synth → Prop :=
| step_play note s : synth_step s (play note s)
| step_stop note s : synth_step s (stop note s)
| step_ended id s s' : onended id s = Some s' → synth_step s s'.

Definition synth_reachable : Synth → Prop := rtc synth_step initial_synth.

(** Every sounding node is the one the table holds for its note, and the
    table only refers to nodes of that note. *)
Record synth_inv (s : Synth) : Prop := {
  inv_playing : ∀ id o, nodes s !! id = Some o → osc_playing o = true →
                        oscillators s !! osc_note o = Some id;
  inv_table : ∀ note id, oscillators s !! note = Some id →
                         ∃ o, nodes s !! id = Some o ∧ osc_note o = note;
  inv_ctx : audioCtx s = false → nodes s = []
}.

(** ** Input reconciler (the [PianoKeyboard] component)

    The props [onNoteDown] and [onNoteUp] may be absent; [calls] records
    the invocations of the ones that are present, in order. *)

Record Props := {
  onNoteDown : bool;
  onNoteUp : bool
}.

Inductive Callback :=
| NoteDown (note : string) (idx : Z)
| NoteUp (note : string) (idx : Z).

Record State := {
  activeKeys : gset Z;
  synth : Synth;
  calls : list Callback
}.

Definition initial_state : State :=
  {| activeKeys := ∅; synth := initial_synth; calls := [] |}.

(** The browser events the component listens to.  [PointerDown] stands for
    [mousedown] and [touchstart] on the key of index [idx]; [PointerUp] for
    [mouseup] and [touchend] on it; [PointerLeave] for [mouseleave] on it;
    [GlobalPointerUp] for [mouseup] and [touchend] in the window outside of
    the keys; [Ended] for the [ended] event of an oscillator node. *)
Inductive Event :=
| KeyDown (code : string)
| KeyUp (code : string)
| PointerDown (idx : Z)
| PointerUp (idx : Z)
| PointerLeave (idx : Z)
| GlobalPointerUp
| Ended (id : nat).

(** The pointer handlers of the black keys call [e.stopPropagation()]
    (lines 270-274); those of the white keys do not (lines 241-245), so a
    [mouseup] or [touchend] on a white key goes on to the listener of the
    window (lines 190-197) once the key's own handler has run. *)
Definition stopsPropagation (idx : Z) : bool :=
  match at_index KEYBOARD_NOTE_MAP idx with
  | Some item => bool_decide (type item = black)
  | None => false
  end.

Section Component.
Variable props : Props.

(** [if (onNoteDown) onNoteDown(note, idx)] *)
Definition call_onNoteDown (note : string) (idx : Z) (log : list Callback) :=
  if onNoteDown props then log ++ [NoteDown note idx] else log.

Definition call_onNoteUp (note : string) (idx : Z) (log : list Callback) :=
  if onNoteUp props then log ++ [NoteUp note idx] else log.

(** Reading [KEYBOARD_NOTE_MAP[idx].note] raises a TypeError when [idx]
    is not an index of the table: the handler then returns [None]. *)
Definition handleKeyDown (code : string) (s : State) : option State :=
  let char := codeToKeyChar code in
  let idx := getNoteIndexFromKey char in
  if bool_decide (idx ≠ (-1)%Z) && negb (bool_decide (idx ∈ activeKeys s))
  then
    item ← at_index KEYBOARD_NOTE_MAP idx;
    Some {| activeKeys := {[idx]} ∪ activeKeys s;
            synth := play (note item) (synth s);
            calls := call_onNoteDown (note item) idx (calls s) |}
  else Some s.

Definition handleKeyUp (code : string) (s : State) : option State :=
  let char := codeToKeyChar code in
  let idx := getNoteIndexFromKey char in
  if bool_decide (idx ≠ (-1)%Z)
  then
    item ← at_index KEYBOARD_NOTE_MAP idx;
    Some {| activeKeys := activeKeys s ∖ {[idx]};
            synth := stop (note item) (synth s);
            calls := call_onNoteUp (note item) idx (calls s) |}
  else Some s.

Definition handlePointerDown (idx : Z) (s : State) : option State :=
  item ← at_index KEYBOARD_NOTE_MAP idx;
  Some {| activeKeys := {[idx]} ∪ activeKeys s;
          synth := play (note item) (synth s);
          calls := call_onNoteDown (note item) idx (calls s) |}.

Definition handlePointerUp (idx : Z) (s : State) : option State :=
  item ← at_index KEYBOARD_NOTE_MAP idx;
  Some {| activeKeys := activeKeys s ∖ {[idx]};
          synth := stop (note item) (synth s);
          calls := call_onNoteUp (note item) idx (calls s) |}.

Definition handleGlobalPointerUp (s : State) : State :=
  {| activeKeys := ∅;
     synth := forEach KEYBOARD_NOTE_MAP (λ key, stop (note key)) (synth s);
     calls := calls s |}.

Definition handleEnded (id : nat) (s : State) : option State :=
  sy ← onended id (synth s);
  Some {| activeKeys := activeKeys s; synth := sy; calls := calls s |}.

Definition step (e : Event) (s : State) : option State :=
  match e with
  | KeyDown code => handleKeyDown code s
  | KeyUp code => handleKeyUp code s
  | PointerDown idx => handlePointerDown idx s
  | PointerUp idx =>
      s' ← handlePointerUp idx s;
      Some (if stopsPropagation idx then s' else handleGlobalPointerUp s')
  | PointerLeave idx => handlePointerUp idx s
  | GlobalPointerUp => Some (handleGlobalPointerUp s)
  | Ended id => handleEnded id s
  end.

Fixpoint run (es : list Event) (s : State) : option State :=
  match es with
  | [] => Some s
  | e :: es' => s' ← step e s; run es' s'
  end.

Inductive reachable : State → Prop :=
| reachable_init : reachable initial_state
| reachable_step e s s' : reachable s → step e s = Some s' → reachable s'.

(** Every voice of the table belongs to a key that is held. *)
Definition held_inv (s : State) : Prop :=
  ∀ nt id, oscillators (synth s) !! nt = Some id →
    ∃ idx item, at_index KEYBOARD_NOTE_MAP idx = Some item ∧
                note item = nt ∧ idx ∈ activeKeys s.
End Component.

(** The props that [App.js] passes: both handlers are present. *)
Definition App_props : Props := {| onNoteDown := true; onNoteUp := true |}.

(** ** Key layout

    A horizontal position is a percentage of the keyboard's width plus a
    multiple of the black-key width (the CSS variable [--black-key-width]),
    as in [calc(p% - var(--black-key-width)/2)]. *)

Record Length := {
  percent : Q;
  black_widths : Q
}.

Definition whiteKeys : list (NoteDefinition * Z) :=
  filter (λ keyObj, type keyObj.1 = white)
         (imap (λ idx item, (item, Z.of_nat idx)) KEYBOARD_NOTE_MAP).

Definition blackKeys : list (NoteDefinition * Z) :=
  filter (λ keyObj, type keyObj.1 = black)
         (imap (λ idx item, (item, Z.of_nat idx)) KEYBOARD_NOTE_MAP).

Definition blackKeyToWhiteLeftIdx : gmap string Z :=
  list_to_map [("C#4", 0%Z); ("D#4", 1%Z); ("F#4", 3%Z); ("G#4", 4%Z); ("A#4", 5%Z)].

Definition keyWidthPercent : Q := (100 / inject_Z (Z.of_nat (length whiteKeys)))%Q.

(** The result of [getBlackKeyOffset]: [null], a percentage, or [NaN] (the
    [in] test also succeeds on the names [Object.prototype] provides, whose
    values are not numbers). *)
Inductive Offset :=
| null
| NaN
| Percent (q : Q).

Definition getBlackKeyOffset (note : string) : Offset :=
  match blackKeyToWhiteLeftIdx !! note with
  | None => if bool_decide (note ∈ Object_prototype) then NaN else null
  | Some leftWhiteIdx =>
      let halfWhite := (keyWidthPercent / 2)%Q in
      Percent ((inject_Z leftWhiteIdx + 1) * keyWidthPercent - halfWhite)%Q
  end.

(** The [left] style of a rendered black key,
    [calc(${offsetPercent}% - var(--black-key-width)/2)]; its width is
    [var(--black-key-width)]. *)
Definition blackKeyLeft (offsetPercent : Q) : Length :=
  {| percent := offsetPercent; black_widths := (- (1 # 2))%Q |}.

Definition blackKeyWidth : Length := {| percent := 0%Q; black_widths := 1%Q |}.

(** The horizontal centre of a box: [left + width / 2]. *)
Definition center (left width : Length) : Length :=
  {| percent := (percent left + percent width / 2)%Q;
     black_widths := (black_widths left + black_widths width / 2)%Q |}.

(** White key number [i] (from the left) occupies the lane
    [i * keyWidthPercent .. (i + 1) * keyWidthPercent]. *)
Definition laneLeft (i : Z) : Q := (inject_Z i * keyWidthPercent)%Q.
Definition laneRight (i : Z) : Q := ((inject_Z i + 1) * keyWidthPercent)%Q.
Definition laneCenter (i : Z) : Q := ((laneLeft i + laneRight i) / 2)%Q.

(** The point half way between the centres of the lanes [i] and [i + 1]
    (the border the two lanes share). *)
Definition betweenLanes (i : Z) : Q := ((laneCenter i + laneCenter (i + 1)) / 2)%Q.

(** The table of the second version of the component (lines 495-504). *)
Record BlackKeyPosition := {
  bk_note : string;
  between : Z * Z;
  bk_percent : Q
}.

Definition blackKeyPositions : list BlackKeyPosition := [
  {| bk_note := "C#4"; between := (0, 1)%Z; bk_percent := (1 / 7) * 100 - 100 / 14 |};
  {| bk_note := "D#4"; between := (1, 2)%Z; bk_percent := (2 / 7) * 100 - 100 / 14 |};
  {| bk_note := "F#4"; between := (3, 4)%Z; bk_percent := (4 / 7) * 100 - 100 / 14 |};
  {| bk_note := "G#4"; between := (4, 5)%Z; bk_percent := (5 / 7) * 100 - 100 / 14 |};
  {| bk_note := "A#4"; between := (5, 6)%Z; bk_percent := (6 / 7) * 100 - 100 / 14 |}
]%Q.

(** ** The pitch-name pattern, as the specification words it

    [[A-G](#)?<digit>]: a letter from A to G, an optional sharp sign and one
    decimal digit. *)

Definition pitch_letters : list ascii := ["A"; "B"; "C"; "D"; "E"; "F"; "G"]%char.

Definition decimal_digits : list ascii :=
  ["0"; "1"; "2"; "3"; "4"; "5"; "6"; "7"; "8"; "9"]%char.

Inductive PitchName : string → Prop :=
| PitchName_natural l d :
    l ∈ pitch_letters → d ∈ decimal_digits →
    PitchName (String l (String d EmptyString))
| PitchName_sharp l d :
    l ∈ pitch_letters → d ∈ decimal_digits →
    PitchName (String l (String "#" (String d EmptyString))).

(** ** Note-down and note-up events

    The events that the specification calls note-down and note-up of the
    key of index [idx]: a physical key whose code resolves to [idx], or a
    pointer gesture on the key (press; release or leave). *)

Definition note_down (idx : Z) (e : Event) : Prop :=
  match e with
  | KeyDown code => getNoteIndexFromKey (codeToKeyChar code) = idx
  | PointerDown i => i = idx
  | _ => False
  end.

Definition note_up (idx : Z) (e : Event) : Prop :=
  match e with
  | KeyUp code => getNoteIndexFromKey (codeToKeyChar code) = idx
  | PointerUp i => i = idx
  | PointerLeave i => i = idx
  | _ => False
  end.

(** The events that reach the window's pointer listener and so run
    release-all: a release of the pointer outside of the keys, or on a key
    that does not stop the propagation. *)
Definition releases_all (e : Event) : bool :=
  match e with
  | PointerUp idx => negb (stopsPropagation idx)
  | GlobalPointerUp => true
  | _ => false
  end.

(** The fixed shape of a voice: triangle wave at the frequency of its
    note, the four-point envelope, scheduled stop after 0.62 s. *)
Definition fixed_shape (o : Oscillator) : Prop :=
  osc_type o = "triangle" ∧
  osc_frequency o = noteToFrequency (osc_note o) ∧
  osc_gain o = envelope ∧
  osc_stop_at o = (62 # 100)%Q.

(** ** Rendering (lines 229-284)

    One element per rendered key: the React key [k.idx], which is also the
    index its pointer handlers pass on, the class name, the labels and, for
    a black key, the offset that goes into the [left] style. *)

Record KeyElement := {
  el_idx : Z;
  el_className : string;
  el_left : option Offset;
  el_ariaLabel : string;
  el_noteLabel : string;
  el_keyLabel : string
}.

Definition active_class (s : State) (idx : Z) : string :=
  if bool_decide (idx ∈ activeKeys s) then " active" else "".

Definition renderWhiteKey (s : State) (k : NoteDefinition * Z) : KeyElement :=
  {| el_idx := k.2;
     el_className := "piano-key white" ++ active_class s k.2;
     el_left := None;
     el_ariaLabel := label k.1;
     el_noteLabel := label k.1;
     el_keyLabel := key k.1 |}.

Definition renderBlackKey (s : State) (k : NoteDefinition * Z) : option KeyElement :=
  let offsetPercent := getBlackKeyOffset (note k.1) in
  match offsetPercent with
  | null => None
  | _ =>
      Some {| el_idx := k.2;
              el_className := "piano-key black" ++ active_class s k.2;
              el_left := Some offsetPercent;
              el_ariaLabel := label k.1;
              el_noteLabel := label k.1;
              el_keyLabel := key k.1 |}
  end.

Definition render (s : State) : list KeyElement :=
  (renderWhiteKey s <$> whiteKeys) ++ omap (renderBlackKey s) blackKeys.

(** ** The component without the synthesizer (third version, lines 564-749) *)

Module NoSynth.

Record State := {
  activeKeys : gset Z;
  calls : list Callback
}.

Definition initial_state : State := {| activeKeys := ∅; calls := [] |}.

Section Component.
Variable props : Props.

Definition handleKeyDown (code : string) (s : State) : option State :=
  let char := codeToKeyChar code in
  let idx := getNoteIndexFromKey char in
  if bool_decide (idx ≠ (-1)%Z) && negb (bool_decide (idx ∈ activeKeys s))
  then
    item ← at_index KEYBOARD_NOTE_MAP idx;
    Some {| activeKeys := {[idx]} ∪ activeKeys s;
            calls := call_onNoteDown props (note item) idx (calls s) |}
  else Some s.

Definition handleKeyUp (code : string) (s : State) : option State :=
  let char := codeToKeyChar code in
  let idx := getNoteIndexFromKey char in
  if bool_decide (idx ≠ (-1)%Z)
  then
    item ← at_index KEYBOARD_NOTE_MAP idx;
    Some {| activeKeys := activeKeys s ∖ {[idx]};
            calls := call_onNoteUp props (note item) idx (calls s) |}
  else Some s.

Definition handlePointerDown (idx : Z) (s : State) : option State :=
  item ← at_index KEYBOARD_NOTE_MAP idx;
  Some {| activeKeys := {[idx]} ∪ activeKeys s;
          calls := call_onNoteDown props (note item) idx (calls s) |}.

Definition handlePointerUp (idx : Z) (s : State) : option State :=
  item ← at_index KEYBOARD_NOTE_MAP idx;
  Some {| activeKeys := activeKeys s ∖ {[idx]};
          calls := call_onNoteUp props (note item) idx (calls s) |}.

Definition handleGlobalPointerUp (s : State) : State :=
  {| activeKeys := ∅; calls := calls s |}.

(** The keys and the window are wired as in the version with the
    synthesizer (lines 665-673, 695-699 and 732-736).  This version creates
    no oscillator: an [ended] event cannot occur. *)
Definition step (e : Event) (s : State) : option State :=
  match e with
  | KeyDown code => handleKeyDown code s
  | KeyUp code => handleKeyUp code s
  | PointerDown idx => handlePointerDown idx s
  | PointerUp idx =>
      s' ← handlePointerUp idx s;
      Some (if stopsPropagation idx then s' else handleGlobalPointerUp s')
  | PointerLeave idx => handlePointerUp idx s
  | GlobalPointerUp => Some (handleGlobalPointerUp s)
  | Ended _ => None
  end.
End Component.

End NoSynth.

(** What the component without the synthesizer keeps of a state. *)
Definition forget_synth (s : State) : NoSynth.State :=
  {| NoSynth.activeKeys := activeKeys s; NoSynth.calls := calls s |}.

(** * Properties *)

(** ** Registry and frequencies *)

Example getNoteIndexFromKey_Q : getNoteIndexFromKey (codeToKeyChar "KeyQ") = 0%Z.
Proof. reflexivity. Qed.

Example getNoteIndexFromKey_q : getNoteIndexFromKey "q" = getNoteIndexFromKey "Q".
Proof. reflexivity. Qed.

Example getNoteIndexFromKey_7 : getNoteIndexFromKey (codeToKeyChar "Digit7") = 10%Z.
Proof. reflexivity. Qed.

Example getNoteIndexFromKey_unbound : getNoteIndexFromKey (codeToKeyChar "KeyA") = (-1)%Z.
Proof. reflexivity. Qed.

Example getNoteIndexFromKey_other : getNoteIndexFromKey (codeToKeyChar "Space") = (-1)%Z.
Proof. reflexivity. Qed.

Example noteNameToMidi_C4 : noteNameToMidi "C4" = 60%Z.
Proof. reflexivity. Qed.

Example noteNameToMidi_Es4 : noteNameToMidi "E#4" = 59%Z.
Proof. reflexivity. Qed.

Example noteNameToMidi_H4 : noteNameToMidi "H4" = 60%Z.
Proof. reflexivity. Qed.

Example noteNameToMidi_C10 : noteNameToMidi "C10" = 60%Z.
Proof. reflexivity. Qed.

Ltac each_ascii c :=
  destruct c as [[] [] [] [] [] [] [] []].

Lemma is_A_G_letters c : is_A_G c = true → c ∈ pitch_letters.
Proof.
  each_ascii c; intros H;
    first [ by vm_compute in H
          | apply (bool_decide_unpack _); vm_compute; reflexivity ].
Qed.

Lemma is_digit_digits c : is_digit c = true → c ∈ decimal_digits.
Proof.
  each_ascii c; intros H;
    first [ by vm_compute in H
          | apply (bool_decide_unpack _); vm_compute; reflexivity ].
Qed.

Lemma letters_is_A_G c : c ∈ pitch_letters → is_A_G c = true.
Proof.
  unfold pitch_letters. rewrite !elem_of_cons, elem_of_nil.
  intros H. repeat (destruct H as [->|H]; [reflexivity|]). destruct H.
Qed.

Lemma digits_is_digit c : c ∈ decimal_digits → is_digit c = true.
Proof.
  unfold decimal_digits. rewrite !elem_of_cons, elem_of_nil.
  intros H. repeat (destruct H as [->|H]; [reflexivity|]). destruct H.
Qed.

Lemma digit_then_end_Some s d :
  digit_then_end s = Some d →
  ∃ c, is_digit c = true ∧ s = String c EmptyString ∧ d = String c EmptyString.
Proof.
  unfold digit_then_end, take_class. destruct s as [|c rest]; [discriminate|].
  destruct (is_digit c) eqn:Hc; [|discriminate].
  destruct rest; simpl; [|discriminate]. intros [= <-]. eauto.
Qed.

(** The matcher accepts exactly the strings of the pattern. *)
Lemma match_note_sound s n octaveS :
  match_note s = Some (n, octaveS) → PitchName s.
Proof.
  unfold match_note. destruct s as [|l r1]; [discriminate|]. simpl.
  destruct (is_A_G l) eqn:Hl; [|discriminate].
  apply is_A_G_letters in Hl.
  destruct r1 as [|c r2]; [discriminate|]. simpl.
  destruct (is_sharp c) eqn:Hc.
  - apply bool_decide_eq_true in Hc as ->.
    destruct (digit_then_end r2) as [d|] eqn:Hd.
    + apply digit_then_end_Some in Hd as (c & Hc & -> & ->).
      intros _. apply PitchName_sharp; [done|]. by apply is_digit_digits.
    + unfold digit_then_end. simpl. discriminate.
  - destruct (digit_then_end (String c r2)) as [d|] eqn:Hd; [|discriminate].
    apply digit_then_end_Some in Hd as (c' & Hc' & [= -> ->] & ->).
    intros _. apply PitchName_natural; [done|]. by apply is_digit_digits.
Qed.

Lemma match_note_complete s : PitchName s → is_Some (match_note s).
Proof.
  intros [l d Hl Hd|l d Hl Hd]; apply letters_is_A_G in Hl;
    revert Hd; unfold decimal_digits; rewrite !elem_of_cons, elem_of_nil;
    intros Hd; unfold match_note, take_class; rewrite Hl;
    repeat (destruct Hd as [->|Hd]; [vm_compute; eauto|]); destruct Hd.
Qed.

Lemma match_note_None s : ¬ PitchName s → match_note s = None.
Proof.
  intros Hs. destruct (match_note s) as [[n o]|] eqn:Hm; [|done].
  destruct Hs. by eapply match_note_sound.
Qed.

Lemma midiToFrequency_69 : midiToFrequency 69 = 440%R.
Proof.
  unfold midiToFrequency.
  replace ((69 - 69) / 12)%R with 0%R by lra.
  rewrite Rpower_O; lra.
Qed.


(** C3.  The twelve registry entries have pairwise distinct input keys
    (also when case is ignored); in table order their notes have the MIDI
    numbers 60, 61, ..., 71 and [noteToFrequency] gives
    [440 * 2^((midi - 69) / 12)] for each; for "A4" it gives exactly 440. *)
Theorem registry_keys_midi_frequency :
  length KEYBOARD_NOTE_MAP = 12%nat ∧
  NoDup (key <$> KEYBOARD_NOTE_MAP) ∧
  NoDup ((λ item, toUpperCase (key item)) <$> KEYBOARD_NOTE_MAP) ∧
  Forall2 (λ item midi,
             noteNameToMidi (note item) = midi ∧
             noteToFrequency (note item)
               = (440 * Rpower 2 ((IZR midi - 69) / 12))%R)
          KEYBOARD_NOTE_MAP (seqZ 60 12) ∧
  noteToFrequency "A4" = 440%R.
Proof.
  split; [reflexivity|].
  split; [apply (bool_decide_unpack _); vm_compute; reflexivity|].
  split; [apply (bool_decide_unpack _); vm_compute; reflexivity|].
  split.
  - change (seqZ 60 12) with [60; 61; 62; 63; 64; 65; 66; 67; 68; 69; 70; 71]%Z.
    unfold KEYBOARD_NOTE_MAP.
    repeat (constructor; [split; reflexivity|]). constructor.
  - change (noteToFrequency "A4") with (midiToFrequency 69).
    apply midiToFrequency_69.
Qed.

Lemma not_PitchName_H4 : ¬ PitchName "H4".
Proof.
  intros H. apply match_note_complete in H. vm_compute in H.
  destruct H as [x H]. discriminate H.
Qed.

(** C7.  A string that does not have the form [[A-G](#)?<digit>] is given
    MIDI number 60, so [noteToFrequency] returns the frequency of C4. *)
Theorem noteNameToMidi_fallback (s : string) :
  ¬ PitchName s →
  noteNameToMidi s = 60%Z ∧ noteToFrequency s = noteToFrequency "C4".
Proof.
  intros Hs. apply match_note_None in Hs.
  assert (noteNameToMidi s = 60%Z) as Hm.
  { unfold noteNameToMidi. by rewrite Hs. }
  split; [done|]. unfold noteToFrequency. rewrite Hm. reflexivity.
Qed.

Lemma noteNameToMidi_fallback_witness :
  ¬ PitchName "H4" ∧
  (noteNameToMidi "H4" = 60%Z ∧ noteToFrequency "H4" = noteToFrequency "C4").
Proof.
  split; [exact not_PitchName_H4|].
  exact (noteNameToMidi_fallback "H4" not_PitchName_H4).
Defined.



(** ** Synthesizer *)

Lemma truthy_at_Some o nt id : o !! nt = Some id → truthy_at o nt = true.
Proof. unfold truthy_at. by intros ->. Qed.

Lemma truthy_at_false o nt : truthy_at o nt = false → o !! nt = None.
Proof. unfold truthy_at. by destruct (o !! nt). Qed.

Lemma oscillators_getCtx s : oscillators (getCtx s) = oscillators s.
Proof. unfold getCtx. by destruct (audioCtx s). Qed.

Lemma nodes_getCtx s : nodes (getCtx s) = nodes s.
Proof. unfold getCtx. by destruct (audioCtx s). Qed.

Lemma audioCtx_getCtx s : audioCtx (getCtx s) = true.
Proof. unfold getCtx. by destruct (audioCtx s) eqn:?. Qed.

Lemma getCtx_created s : audioCtx s = true → getCtx s = s.
Proof. unfold getCtx. by intros ->. Qed.

(** [play] on a note that has a voice changes neither the pool nor the
    table. *)
Lemma play_existing nt id s :
  oscillators s !! nt = Some id → play nt s = getCtx s.
Proof.
  intros H. unfold play.
  by rewrite oscillators_getCtx, (truthy_at_Some _ _ _ H).
Qed.

Lemma play_fresh nt s :
  truthy_at (oscillators s) nt = false →
  nodes (play nt s) = nodes s ++ [createOscillator nt (noteToFrequency nt)] ∧
  oscillators (play nt s) = <[nt := length (nodes s)]> (oscillators s).
Proof.
  intros H. unfold play. rewrite oscillators_getCtx, H.
  cbn [nodes oscillators]. by rewrite nodes_getCtx.
Qed.

(** [stop] on a note without a voice does nothing at all. *)
Lemma stop_absent nt s : oscillators s !! nt = None → stop nt s = s.
Proof.
  intros H. unfold stop. destruct (truthy_at (oscillators s) nt); [|done].
  rewrite H, delete_id by done. by destruct s.
Qed.

Lemma oscillators_stop nt s : oscillators (stop nt s) = delete nt (oscillators s).
Proof.
  unfold stop. destruct (truthy_at (oscillators s) nt) eqn:H; [done|].
  apply truthy_at_false in H. by rewrite delete_id.
Qed.

Lemma synth_inv_initial : synth_inv initial_synth.
Proof. split; simpl; intros *; try done; by rewrite ?lookup_nil, ?lookup_empty. Qed.

Lemma synth_inv_getCtx s : synth_inv s → synth_inv (getCtx s).
Proof.
  intros [H1 H2 H3]. split; rewrite ?oscillators_getCtx, ?nodes_getCtx; try done.
  by rewrite audioCtx_getCtx.
Qed.

Lemma synth_inv_play nt s : synth_inv s → synth_inv (play nt s).
Proof.
  intros Hs. destruct (truthy_at (oscillators s) nt) eqn:Hnt.
  { unfold play. rewrite oscillators_getCtx, Hnt. by apply synth_inv_getCtx. }
  destruct (play_fresh _ _ Hnt) as [Hn Ho]. apply truthy_at_false in Hnt.
  destruct Hs as [H1 H2 H3]. split.
  - intros id o. rewrite Hn, Ho. intros Hid Hp.
    apply lookup_snoc_Some in Hid as [[Hlt Hid]|[-> <-]].
    + specialize (H1 _ _ Hid Hp). rewrite lookup_insert_ne; [done|].
      intros Heq. congruence.
    + simpl. by rewrite lookup_insert_eq.
  - intros n id. rewrite Hn, Ho. intros Hid.
    destruct (decide (nt = n)) as [<-|Hne].
    + rewrite lookup_insert_eq in Hid. injection Hid as <-.
      eexists. split; [apply list_lookup_middle; by rewrite ?app_nil_r|done].
    + rewrite lookup_insert_ne in Hid by done.
      destruct (H2 _ _ Hid) as (o & Ho' & Hno). exists o. split; [|done].
      rewrite lookup_app_l; [done|]. by eapply lookup_lt_Some.
  - unfold play. rewrite oscillators_getCtx.
    destruct (truthy_at (oscillators s) nt); simpl; by rewrite audioCtx_getCtx.
Qed.

Lemma lookup_alter_silence (l : list Oscillator) id i o :
  alter silence id l !! i = Some o →
  ∃ o', l !! i = Some o' ∧ osc_note o' = osc_note o ∧
        (osc_playing o = true → i ≠ id ∧ o' = o).
Proof.
  destruct (decide (id = i)) as [->|Hne].
  - rewrite list_lookup_alter_eq. destruct (l !! i) as [o'|]; [|done].
    intros [= <-]. exists o'. by repeat split.
  - rewrite list_lookup_alter_ne by done. intros H. exists o.
    repeat split; [done|congruence].
Qed.

Lemma lookup_alter_silence_2 (l : list Oscillator) id i o :
  l !! i = Some o →
  ∃ o', alter silence id l !! i = Some o' ∧ osc_note o' = osc_note o.
Proof.
  intros H. destruct (decide (id = i)) as [->|Hne].
  - rewrite list_lookup_alter_eq, H. by eexists.
  - rewrite list_lookup_alter_ne by done. by eexists.
Qed.

Lemma synth_inv_stop nt s : synth_inv s → synth_inv (stop nt s).
Proof.
  intros Hs. destruct (oscillators s !! nt) as [id|] eqn:Hnt;
    [|by rewrite stop_absent].
  unfold stop. rewrite (truthy_at_Some _ _ _ Hnt), Hnt.
  destruct Hs as [H1 H2 H3]. split; simpl.
  - intros i o Hi Hp.
    apply lookup_alter_silence in Hi as (o' & Hi & Hn & Hq).
    destruct (Hq Hp) as [Hne ->]. specialize (H1 _ _ Hi Hp).
    rewrite lookup_delete_ne; [done|]. intros Heq. congruence.
  - intros n i Hi. apply lookup_delete_Some in Hi as [Hne Hi].
    destruct (H2 _ _ Hi) as (o & Ho & Hn).
    destruct (lookup_alter_silence_2 _ id _ _ Ho) as (o' & ? & ?).
    exists o'. split; [done|congruence].
  - intros H. by rewrite (H3 H).
Qed.

Lemma synth_inv_onended id s s' :
  onended id s = Some s' → synth_inv s → synth_inv s'.
Proof.
  unfold onended. destruct (nodes s !! id) as [osc|] eqn:Hid; [|done].
  simpl. intros [= <-] [H1 H2 H3]. split; simpl.
  - intros i o Hi Hp.
    apply lookup_alter_silence in Hi as (o' & Hi & Hn & Hq).
    destruct (Hq Hp) as [Hne ->]. specialize (H1 _ _ Hi Hp).
    case_bool_decide as Hd; [|done].
    rewrite lookup_delete_ne; [done|]. intros Heq. congruence.
  - intros n i Hi.
    assert (oscillators s !! n = Some i) as Hi'.
    { case_bool_decide; [|done]. by apply lookup_delete_Some in Hi as [_ ?]. }
    destruct (H2 _ _ Hi') as (o & Ho & Hn).
    destruct (lookup_alter_silence_2 _ id _ _ Ho) as (o' & ? & ?).
    exists o'. split; [done|congruence].
  - intros H. by rewrite (H3 H).
Qed.

Lemma synth_step_inv s s' : synth_step s s' → synth_inv s → synth_inv s'.
Proof.
  intros [nt s0|nt s0|id s0 s1 H] Hs;
    eauto using synth_inv_play, synth_inv_stop, synth_inv_onended.
Qed.

Lemma synth_reachable_inv s : synth_reachable s → synth_inv s.
Proof.
  unfold synth_reachable. revert s.
  apply rtc_ind_r; [apply synth_inv_initial|].
  intros y z _ Hstep Hy. by eapply synth_step_inv.
Qed.

(** A list in which any two elements that satisfy [P] sit at the same
    position has at most one element that satisfies [P]. *)
Lemma filter_at_most_one {A} (P : A → Prop) `{!∀ x, Decision (P x)} (l : list A) :
  (∀ i j x y, l !! i = Some x → l !! j = Some y → P x → P y → i = j) →
  (length (filter P l) ≤ 1)%nat.
Proof.
  induction l as [|a l IH]; intros Hl; [simpl; lia|].
  destruct (decide (P a)) as [Ha|Ha].
  - rewrite filter_cons_True by done.
    assert (filter P l = []) as ->; [|simpl; lia].
    destruct (filter P l) as [|y l'] eqn:Hf; [done|].
    assert (y ∈ filter P l) as Hy by (rewrite Hf; left).
    apply list_elem_of_filter in Hy as [Py Hy].
    apply list_elem_of_lookup in Hy as [j Hj].
    by specialize (Hl 0%nat (S j) a y eq_refl Hj Ha Py).
  - rewrite filter_cons_False by done. apply IH.
    intros i j x y Hi Hj Px Py.
    by specialize (Hl (S i) (S j) x y Hi Hj Px Py) as [= ->].
Qed.

Lemma live_voices_at_most_one s nt :
  synth_inv s → (length (live_voices s nt) ≤ 1)%nat.
Proof.
  intros [H1 _ _]. apply filter_at_most_one.
  intros i j x y Hi Hj [Px Nx] [Py Ny].
  pose proof (H1 _ _ Hi Px). pose proof (H1 _ _ Hj Py). congruence.
Qed.

Lemma synth_reachable_ctx s nt id :
  synth_inv s → oscillators s !! nt = Some id → audioCtx s = true.
Proof.
  intros [_ H2 H3] Hid. destruct (audioCtx s); [done|].
  destruct (H2 _ _ Hid) as (o & Ho & _). by rewrite H3 in Ho.
Qed.

(** C2.  In every state the synthesizer can reach by [play], [stop] and
    [ended] events, each note has at most one sounding voice; and [play] on
    a note whose voice is in the table returns the state as it was: no node
    is created, none is restarted, the table is the same. *)
Theorem one_voice_per_note (s : Synth) (nt : string) :
  synth_reachable s →
  (length (live_voices s nt) ≤ 1)%nat ∧
  (is_Some (oscillators s !! nt) → play nt s = s).
Proof.
  intros Hs. apply synth_reachable_inv in Hs. split.
  - by apply live_voices_at_most_one.
  - intros [id Hid]. rewrite (play_existing _ _ _ Hid).
    apply getCtx_created. by eapply synth_reachable_ctx.
Qed.

Lemma synth_reachable_play_C4 : synth_reachable (play "C4" initial_synth).
Proof. eapply rtc_r; [apply rtc_refl|apply step_play]. Qed.

Lemma one_voice_per_note_witness :
  synth_reachable (play "C4" initial_synth) ∧
  (length (live_voices (play "C4" initial_synth) "C4") ≤ 1)%nat ∧
  (is_Some (oscillators (play "C4" initial_synth) !! "C4") →
   play "C4" (play "C4" initial_synth) = play "C4" initial_synth).
Proof.
  split; [exact synth_reachable_play_C4|].
  exact (one_voice_per_note _ "C4" synth_reachable_play_C4).
Defined.

(** ** Registry lookups *)

Lemma findIndex_from_range {A} (p : A → bool) (l : list A) (i : Z) :
  (0 ≤ i)%Z →
  findIndex_from p l i = (-1)%Z ∨
  (i ≤ findIndex_from p l i)%Z ∧
  is_Some (l !! Z.to_nat (findIndex_from p l i - i)).
Proof.
  revert i. induction l as [|x l IH]; intros i Hi; simpl; [by left|].
  destruct (p x).
  - right. split; [lia|]. rewrite Z.sub_diag. simpl. eauto.
  - destruct (IH (i + 1)%Z ltac:(lia)) as [H|[H1 H2]]; [by left|right].
    split; [lia|].
    replace (Z.to_nat (findIndex_from p l (i + 1) - i))
      with (S (Z.to_nat (findIndex_from p l (i + 1) - (i + 1)))) by lia.
    done.
Qed.

(** A key that is bound resolves to an index of the table: the keyboard
    handlers never read outside of it. *)
Lemma getNoteIndexFromKey_range k :
  getNoteIndexFromKey k = (-1)%Z ∨
  is_Some (at_index KEYBOARD_NOTE_MAP (getNoteIndexFromKey k)).
Proof.
  unfold getNoteIndexFromKey. destruct (at_end k); [by left|].
  unfold findIndex, at_index.
  match goal with |- context [findIndex_from ?p ?l 0%Z] =>
    destruct (findIndex_from_range p l 0%Z ltac:(lia)) as [H|[H1 H2]]
  end; [by left|right].
  rewrite Z.sub_0_r in H2. by rewrite (proj2 (Z.ltb_ge _ _) H1).
Qed.

Lemma at_index_lookup {A} (l : list A) idx x :
  at_index l idx = Some x → (0 ≤ idx)%Z ∧ l !! Z.to_nat idx = Some x.
Proof.
  unfold at_index. destruct (idx <? 0)%Z eqn:H; [done|].
  apply Z.ltb_ge in H. done.
Qed.

Lemma registry_notes_NoDup : NoDup (note <$> KEYBOARD_NOTE_MAP).
Proof. apply (bool_decide_unpack _). vm_compute. reflexivity. Qed.

Lemma registry_note_inj idx idx' item item' :
  at_index KEYBOARD_NOTE_MAP idx = Some item →
  at_index KEYBOARD_NOTE_MAP idx' = Some item' →
  note item = note item' → idx = idx'.
Proof.
  intros [H0 H]%at_index_lookup [H0' H']%at_index_lookup Heq.
  assert (Z.to_nat idx = Z.to_nat idx'); [|lia].
  eapply NoDup_lookup; [apply registry_notes_NoDup| |];
    rewrite list_lookup_fmap; [by rewrite H|by rewrite H', Heq].
Qed.

Lemma registry_not_inherited idx item :
  at_index KEYBOARD_NOTE_MAP idx = Some item → note item ∉ Object_prototype.
Proof.
  intros [_ H]%at_index_lookup.
  assert (Forall (λ item, note item ∉ Object_prototype) KEYBOARD_NOTE_MAP) as HF.
  { apply (bool_decide_unpack _). vm_compute. reflexivity. }
  rewrite Forall_lookup in HF. by eapply HF.
Qed.

Lemma truthy_at_registry o idx item :
  at_index KEYBOARD_NOTE_MAP idx = Some item →
  o !! note item = None → truthy_at o (note item) = false.
Proof.
  intros Hi Ho. unfold truthy_at. rewrite Ho.
  apply bool_decide_eq_false. by eapply registry_not_inherited.
Qed.

(** ** Reachable states of the component *)

Lemma oscillators_play_lookup nt s n id :
  oscillators (play nt s) !! n = Some id →
  n = nt ∨ oscillators s !! n = Some id.
Proof.
  destruct (truthy_at (oscillators s) nt) eqn:Hnt.
  - unfold play. rewrite oscillators_getCtx, Hnt, oscillators_getCtx. auto.
  - destruct (play_fresh _ _ Hnt) as [_ ->].
    destruct (decide (nt = n)) as [->|Hne]; [auto|].
    rewrite lookup_insert_ne by done. auto.
Qed.

Lemma forEach_cons {A S} (x : A) l (f : A → S → S) s :
  forEach (x :: l) f s = forEach l f (f x s).
Proof. reflexivity. Qed.

(** The sweep of [handleGlobalPointerUp]. *)
Lemma oscillators_stop_all l sy n id :
  oscillators (forEach l (λ key, stop (note key)) sy) !! n = Some id →
  oscillators sy !! n = Some id ∧ n ∉ note <$> l.
Proof.
  revert sy. induction l as [|item l IH]; intros sy.
  - intros H. split; [done|]. apply not_elem_of_nil.
  - rewrite forEach_cons, fmap_cons.
    intros H. apply IH in H as [H Hn]. rewrite oscillators_stop in H.
    apply lookup_delete_Some in H as [Hne H]. split; [done|].
    rewrite not_elem_of_cons. auto.
Qed.

Lemma synth_inv_stop_all l sy : synth_inv sy → synth_inv (forEach l (λ key, stop (note key)) sy).
Proof.
  revert sy. induction l as [|item l IH]; intros sy H; [done|].
  rewrite forEach_cons. by apply IH, synth_inv_stop.
Qed.

Lemma synth_reachable_stop_all l sy :
  synth_reachable sy → synth_reachable (forEach l (λ key, stop (note key)) sy).
Proof.
  revert sy. induction l as [|item l IH]; intros sy H; [done|].
  rewrite forEach_cons. apply IH. eapply rtc_r; [exact H|apply step_stop].
Qed.

Lemma synth_handleGlobalPointerUp s :
  synth (handleGlobalPointerUp s)
  = forEach KEYBOARD_NOTE_MAP (λ key, stop (note key)) (synth s).
Proof. reflexivity. Qed.

Lemma Event_PointerUp_or e :
  (∃ idx, e = PointerUp idx) ∨ (∀ idx, e ≠ PointerUp idx).
Proof. destruct e; eauto; by right. Qed.

Section ComponentFacts.
Variable props : Props.

(** A release on a key is the key's handler, followed by release-all
    unless the key stops the propagation. *)
Lemma step_PointerUp idx s s' :
  step props (PointerUp idx) s = Some s' →
  ∃ s1, step props (PointerLeave idx) s = Some s1 ∧
        (stopsPropagation idx = true ∧ s' = s1 ∨
         stopsPropagation idx = false ∧ s' = handleGlobalPointerUp s1).
Proof.
  cbn [step]. destruct (handlePointerUp props idx s) as [s1|]; [|done].
  simpl. intros [= <-]. exists s1. split; [done|].
  destruct (stopsPropagation idx); auto.
Qed.

(** Every step of the component is made of steps of the synthesizer. *)
Lemma step_synth_reachable_1 e s s' :
  (∀ idx, e ≠ PointerUp idx) →
  step props e s = Some s' →
  synth_reachable (synth s) → synth_reachable (synth s').
Proof.
  intros Hne Hstep Hs.
  destruct e as [code|code|idx|idx|idx| |id]; cbn [step] in Hstep;
    [| | |by destruct (Hne idx)| | |].
  - unfold handleKeyDown in Hstep.
    destruct (_ && _); [|by injection Hstep as <-].
    destruct (at_index _ _) as [item|]; [|done]. injection Hstep as <-.
    eapply rtc_r; [exact Hs|apply step_play].
  - unfold handleKeyUp in Hstep.
    destruct (bool_decide _); [|by injection Hstep as <-].
    destruct (at_index _ _) as [item|]; [|done]. injection Hstep as <-.
    eapply rtc_r; [exact Hs|apply step_stop].
  - unfold handlePointerDown in Hstep.
    destruct (at_index _ _) as [item|]; [|done]. injection Hstep as <-.
    eapply rtc_r; [exact Hs|apply step_play].
  - unfold handlePointerUp in Hstep.
    destruct (at_index _ _) as [item|]; [|done]. injection Hstep as <-.
    eapply rtc_r; [exact Hs|apply step_stop].
  - injection Hstep as <-. rewrite synth_handleGlobalPointerUp.
    by apply synth_reachable_stop_all.
  - unfold handleEnded in Hstep.
    destruct (onended id (synth s)) as [sy|] eqn:Hsy; [|done].
    injection Hstep as <-. eapply rtc_r; [exact Hs|by eapply step_ended].
Qed.

Lemma step_synth_reachable e s s' :
  step props e s = Some s' →
  synth_reachable (synth s) → synth_reachable (synth s').
Proof.
  intros Hstep Hs.
  destruct (Event_PointerUp_or e) as [[idx ->]|Hne].
  - apply step_PointerUp in Hstep as (s1 & H1 & [[_ ->]|[_ ->]]).
    + by eapply (step_synth_reachable_1 (PointerLeave idx)).
    + eapply (step_synth_reachable_1 GlobalPointerUp); [done|reflexivity|].
      by eapply (step_synth_reachable_1 (PointerLeave idx)).
  - by eapply step_synth_reachable_1.
Qed.

Lemma reachable_synth_reachable s :
  reachable props s → synth_reachable (synth s).
Proof.
  induction 1 as [|e s s' _ IH Hstep]; [apply rtc_refl|].
  by eapply step_synth_reachable.
Qed.

Lemma held_inv_mono s s' :
  held_inv s → activeKeys s ⊆ activeKeys s' →
  (∀ n id, oscillators (synth s') !! n = Some id →
           oscillators (synth s) !! n = Some id) →
  held_inv s'.
Proof.
  intros Hs Hsub Ho n id Hn. destruct (Hs _ _ (Ho _ _ Hn)) as (i & it & ? & ? & ?).
  exists i, it. repeat split; [done..|]. by apply Hsub.
Qed.

Lemma held_inv_press idx item s log :
  at_index KEYBOARD_NOTE_MAP idx = Some item → held_inv s →
  held_inv {| activeKeys := {[idx]} ∪ activeKeys s;
              synth := play (note item) (synth s); calls := log |}.
Proof.
  intros Hi Hs n id Hn. simpl in *.
  apply oscillators_play_lookup in Hn as [->|Hn].
  - exists idx, item. repeat split; [done|]. set_solver.
  - destruct (Hs _ _ Hn) as (i & it & ? & ? & ?).
    exists i, it. repeat split; [done..|]. set_solver.
Qed.

Lemma held_inv_release idx item s log :
  at_index KEYBOARD_NOTE_MAP idx = Some item → held_inv s →
  held_inv {| activeKeys := activeKeys s ∖ {[idx]};
              synth := stop (note item) (synth s); calls := log |}.
Proof.
  intros Hi Hs n id Hn. simpl in *. rewrite oscillators_stop in Hn.
  apply lookup_delete_Some in Hn as [Hne Hn].
  destruct (Hs _ _ Hn) as (i & it & Hit & Hnt & Hin).
  exists i, it. repeat split; [done..|].
  apply elem_of_difference. split; [done|].
  rewrite elem_of_singleton. intros ->. congruence.
Qed.

Lemma step_held_inv_1 e s s' :
  (∀ idx, e ≠ PointerUp idx) →
  step props e s = Some s' → held_inv s → held_inv s'.
Proof.
  intros Hne Hstep Hs.
  destruct e as [code|code|idx|idx|idx| |id]; cbn [step] in Hstep;
    [| | |by destruct (Hne idx)| | |].
  - unfold handleKeyDown in Hstep.
    destruct (_ && _); [|by injection Hstep as <-].
    destruct (at_index _ _) as [item|] eqn:Hi; [|done]. injection Hstep as <-.
    by apply held_inv_press.
  - unfold handleKeyUp in Hstep.
    destruct (bool_decide _); [|by injection Hstep as <-].
    destruct (at_index _ _) as [item|] eqn:Hi; [|done]. injection Hstep as <-.
    by apply held_inv_release.
  - unfold handlePointerDown in Hstep.
    destruct (at_index _ _) as [item|] eqn:Hi; [|done]. injection Hstep as <-.
    by apply held_inv_press.
  - unfold handlePointerUp in Hstep.
    destruct (at_index _ _) as [item|] eqn:Hi; [|done]. injection Hstep as <-.
    by apply held_inv_release.
  - injection Hstep as <-. intros n id Hn.
    rewrite synth_handleGlobalPointerUp in Hn.
    apply oscillators_stop_all in Hn as [Hn Hnot].
    destruct (Hs _ _ Hn) as (i & it & [_ Hit]%at_index_lookup & <- & _).
    destruct Hnot. apply list_elem_of_fmap. exists it. split; [done|].
    by eapply list_elem_of_lookup_2.
  - unfold handleEnded, onended in Hstep.
    destruct (nodes (synth s) !! id) as [osc|]; [|done]. simpl in Hstep.
    injection Hstep as <-. eapply held_inv_mono; [exact Hs|done|]. simpl.
    intros n i. case_bool_decide; [|done].
    by intros [_ ?]%lookup_delete_Some.
Qed.

Lemma step_held_inv e s s' :
  step props e s = Some s' → held_inv s → held_inv s'.
Proof.
  intros Hstep Hs.
  destruct (Event_PointerUp_or e) as [[idx ->]|Hne].
  - apply step_PointerUp in Hstep as (s1 & H1 & [[_ ->]|[_ ->]]).
    + by eapply (step_held_inv_1 (PointerLeave idx)).
    + eapply (step_held_inv_1 GlobalPointerUp); [done|reflexivity|].
      by eapply (step_held_inv_1 (PointerLeave idx)).
  - by eapply step_held_inv_1.
Qed.

Lemma reachable_held_inv s : reachable props s → held_inv s.
Proof.
  induction 1 as [|e s s' _ IH Hstep]; [|by eapply step_held_inv].
  intros n id. simpl. by rewrite lookup_empty.
Qed.

(** In a reachable state a key that is not held has no voice. *)
Lemma reachable_released_no_voice s idx item :
  reachable props s →
  at_index KEYBOARD_NOTE_MAP idx = Some item →
  idx ∉ activeKeys s →
  oscillators (synth s) !! note item = None.
Proof.
  intros Hs Hi Hidx. apply reachable_held_inv in Hs.
  destruct (oscillators (synth s) !! note item) as [id|] eqn:Hn; [|done].
  destruct (Hs _ _ Hn) as (i & it & Hit & Hnt & Hin).
  by rewrite (registry_note_inj _ _ _ _ Hit Hi Hnt) in Hin.
Qed.
End ComponentFacts.

(** ** Handlers *)

Section Handlers.
Variable props : Props.

Lemma handleKeyDown_held code s :
  getNoteIndexFromKey (codeToKeyChar code) ∈ activeKeys s →
  handleKeyDown props code s = Some s.
Proof.
  intros H. unfold handleKeyDown.
  by rewrite (bool_decide_eq_true_2 _ H), andb_false_r.
Qed.

Lemma handleKeyDown_unbound code s :
  getNoteIndexFromKey (codeToKeyChar code) = (-1)%Z →
  handleKeyDown props code s = Some s.
Proof. intros H. unfold handleKeyDown. by rewrite H. Qed.

Lemma handleKeyDown_released code s idx item :
  getNoteIndexFromKey (codeToKeyChar code) = idx →
  at_index KEYBOARD_NOTE_MAP idx = Some item →
  idx ∉ activeKeys s →
  handleKeyDown props code s = handlePointerDown props idx s.
Proof.
  intros Hc Hi Hn. unfold handleKeyDown, handlePointerDown. rewrite Hc.
  rewrite (bool_decide_eq_false_2 _ Hn), bool_decide_eq_true_2; [done|].
  intros ->. done.
Qed.

Lemma handleKeyUp_bound code idx item s :
  getNoteIndexFromKey (codeToKeyChar code) = idx →
  at_index KEYBOARD_NOTE_MAP idx = Some item →
  handleKeyUp props code s = handlePointerUp props idx s.
Proof.
  intros Hc Hi. unfold handleKeyUp, handlePointerUp. rewrite Hc.
  rewrite bool_decide_eq_true_2; [done|]. intros ->. done.
Qed.

Lemma handlePointerDown_eq idx item s :
  at_index KEYBOARD_NOTE_MAP idx = Some item →
  handlePointerDown props idx s =
    Some {| activeKeys := {[idx]} ∪ activeKeys s;
            synth := play (note item) (synth s);
            calls := call_onNoteDown props (note item) idx (calls s) |}.
Proof. intros H. unfold handlePointerDown. by rewrite H. Qed.

Lemma handlePointerUp_eq idx item s :
  at_index KEYBOARD_NOTE_MAP idx = Some item →
  handlePointerUp props idx s =
    Some {| activeKeys := activeKeys s ∖ {[idx]};
            synth := stop (note item) (synth s);
            calls := call_onNoteUp props (note item) idx (calls s) |}.
Proof. intros H. unfold handlePointerUp. by rewrite H. Qed.

(** The keyboard handlers return a state for every key code. *)
Lemma handleKeyDown_total code s : is_Some (handleKeyDown props code s).
Proof.
  unfold handleKeyDown. destruct (_ && _) eqn:Hg; [|eauto].
  apply andb_true_iff in Hg as [Hg _]. apply bool_decide_eq_true in Hg.
  destruct (getNoteIndexFromKey_range (codeToKeyChar code)) as [|[item ->]];
    [done|]. simpl. eauto.
Qed.

Lemma handleKeyUp_total code s : is_Some (handleKeyUp props code s).
Proof.
  unfold handleKeyUp. case_bool_decide as Hg; [|eauto].
  destruct (getNoteIndexFromKey_range (codeToKeyChar code)) as [|[item ->]];
    [done|]. simpl. eauto.
Qed.

(** C1.  A key-down for a key whose note is already in the active set
    returns the state unchanged: no set entry, no callback, no voice.
    From a state where the note is released, the first key-down adds the
    one entry, makes the one callback and creates the one voice, and a
    second key-down changes nothing. *)
Theorem key_repeat_is_noop code s idx item :
  reachable props s →
  getNoteIndexFromKey (codeToKeyChar code) = idx →
  at_index KEYBOARD_NOTE_MAP idx = Some item →
  (idx ∈ activeKeys s → handleKeyDown props code s = Some s) ∧
  (idx ∉ activeKeys s →
   ∃ s1, handleKeyDown props code s = Some s1 ∧
         handleKeyDown props code s1 = Some s1 ∧
         run props [KeyDown code; KeyDown code] s = Some s1 ∧
         activeKeys s1 = {[idx]} ∪ activeKeys s ∧
         calls s1 = call_onNoteDown props (note item) idx (calls s) ∧
         nodes (synth s1) =
           nodes (synth s)
             ++ [createOscillator (note item) (noteToFrequency (note item))] ∧
         oscillators (synth s1) =
           <[note item := length (nodes (synth s))]> (oscillators (synth s))).
Proof.
  intros Hs Hc Hi. split.
  - intros H. apply handleKeyDown_held. by rewrite Hc.
  - intros Hn.
    set (s1 := {| activeKeys := {[idx]} ∪ activeKeys s;
                  synth := play (note item) (synth s);
                  calls := call_onNoteDown props (note item) idx (calls s) |}).
    assert (handleKeyDown props code s = Some s1) as H1.
    { rewrite (handleKeyDown_released _ _ _ _ Hc Hi Hn).
      by apply handlePointerDown_eq. }
    assert (handleKeyDown props code s1 = Some s1) as H2.
    { apply handleKeyDown_held. rewrite Hc. subst s1. cbn [activeKeys].
      apply elem_of_union_l, elem_of_singleton. reflexivity. }
    exists s1. split; [exact H1|]. split; [exact H2|].
    split; [cbn [run step]; rewrite H1; cbn [mbind option_bind]; by rewrite H2|].
    subst s1. cbn [activeKeys calls synth]. do 2 (split; [done|]).
    apply play_fresh. eapply truthy_at_registry; [done|].
    by eapply reachable_released_no_voice.
Qed.

(** C9 (amended).  A pointer press on a key whose note is in the active
    set has no guard: the set stays as it is, the callback is invoked
    again and [play] is called.  [play] leaves the voices alone when the
    note still has one in the table, and creates a new one when it has
    none (the earlier voice ended).  A key-down of the bound key in the
    same state does nothing. *)
Theorem pointer_press_on_held_key idx item s :
  at_index KEYBOARD_NOTE_MAP idx = Some item →
  idx ∈ activeKeys s →
  ∃ s', handlePointerDown props idx s = Some s' ∧
        activeKeys s' = activeKeys s ∧
        calls s' = call_onNoteDown props (note item) idx (calls s) ∧
        (onNoteDown props = true →
         calls s' = calls s ++ [NoteDown (note item) idx]) ∧
        synth s' = play (note item) (synth s) ∧
        (is_Some (oscillators (synth s) !! note item) →
         nodes (synth s') = nodes (synth s) ∧
         oscillators (synth s') = oscillators (synth s)) ∧
        (oscillators (synth s) !! note item = None →
         nodes (synth s') =
           nodes (synth s)
             ++ [createOscillator (note item) (noteToFrequency (note item))]) ∧
        (∀ code, getNoteIndexFromKey (codeToKeyChar code) = idx →
                 handleKeyDown props code s = Some s).
Proof.
  intros Hi Hin. eexists. split; [by apply handlePointerDown_eq|].
  cbn [activeKeys calls synth].
  split; [by apply subseteq_union_1_L, singleton_subseteq_l|]. split; [done|].
  split; [unfold call_onNoteDown; by intros ->|]. split; [done|].
  split; [|split].
  - intros [id Hid]. rewrite (play_existing _ _ _ Hid).
    by rewrite nodes_getCtx, oscillators_getCtx.
  - intros Hnone. apply play_fresh. by eapply truthy_at_registry.
  - intros code Hc. apply handleKeyDown_held. by rewrite Hc.
Qed.

Lemma releases_all_note_up e idx item :
  at_index KEYBOARD_NOTE_MAP idx = Some item →
  note_up idx e →
  releases_all e = true ↔ e = PointerUp idx ∧ type item = white.
Proof.
  intros Hi He. destruct e as [code|code|i|i|i| |id]; try done; simpl in He.
  - split; [done|]. by intros [[=] _].
  - subst i. cbn [releases_all]. unfold stopsPropagation. rewrite Hi.
    destruct (type item); simpl; split; try done; by intros [_ [=]].
  - split; [done|]. by intros [[=] _].
Qed.

(** What a note-up event does: the three statements of the note-off
    handlers, followed by release-all when the event reaches the window. *)
Lemma step_note_up e idx item s :
  at_index KEYBOARD_NOTE_MAP idx = Some item →
  note_up idx e →
  step props e s =
    Some (let s1 := {| activeKeys := activeKeys s ∖ {[idx]};
                       synth := stop (note item) (synth s);
                       calls := call_onNoteUp props (note item) idx (calls s) |} in
          if releases_all e then handleGlobalPointerUp s1 else s1).
Proof.
  intros Hi He. destruct e as [code|code|i|i|i| |id]; try done; simpl in He;
    cbn [step releases_all].
  - rewrite (handleKeyUp_bound _ _ _ _ He Hi). by apply handlePointerUp_eq.
  - subst i. rewrite (handlePointerUp_eq _ _ _ Hi). cbn [mbind option_bind].
    by destruct (stopsPropagation idx).
  - subst i. by apply handlePointerUp_eq.
Qed.

(** C5 (amended).  A note-up event for a key whose note is not in the
    active set still invokes [onNoteUp] (when the prop is present) with
    the note and its index.  A key-up, a pointer-leave and a release on a
    black key leave the active set and the synthesizer as they are; a
    release on a white key goes on to the window and is a release-all as
    well: the active set is emptied and the voices of all notes are
    stopped. *)
Theorem note_up_on_released_key e idx item s :
  reachable props s →
  at_index KEYBOARD_NOTE_MAP idx = Some item →
  note_up idx e →
  idx ∉ activeKeys s →
  ∃ s', step props e s = Some s' ∧
        calls s' = call_onNoteUp props (note item) idx (calls s) ∧
        (onNoteUp props = true →
         calls s' = calls s ++ [NoteUp (note item) idx]) ∧
        (releases_all e = true ↔ e = PointerUp idx ∧ type item = white) ∧
        (releases_all e = false →
         activeKeys s' = activeKeys s ∧ synth s' = synth s) ∧
        (releases_all e = true →
         activeKeys s' = ∅ ∧ synth s' = synth (handleGlobalPointerUp s)).
Proof.
  intros Hs Hi He Hn.
  assert (stop (note item) (synth s) = synth s) as Hstop.
  { apply stop_absent. by eapply reachable_released_no_voice. }
  eexists. split; [by apply step_note_up|]. cbn zeta.
  split; [by destruct (releases_all e)|].
  split; [destruct (releases_all e); unfold call_onNoteUp; by intros ->|].
  split; [by apply releases_all_note_up|]. split.
  - intros ->. cbn [activeKeys synth]. split; [|done].
    by apply difference_disjoint_L, disjoint_singleton_r.
  - intros ->. split; [done|].
    rewrite !synth_handleGlobalPointerUp. cbn [synth]. by rewrite Hstop.
Qed.

(** C6 (amended).  For a note that is not in the active set, a note-down
    followed by a note-up (by the keyboard or by the pointer, in any
    combination) gives back the active set it started from when the
    note-up is a key-up, a pointer-leave or a release on a black key; when
    it is a release on a white key, which is a release-all as well, the
    active set is empty afterwards. *)
Theorem note_down_up_round_trip down up idx item s :
  at_index KEYBOARD_NOTE_MAP idx = Some item →
  note_down idx down →
  note_up idx up →
  idx ∉ activeKeys s →
  ∃ s', run props [down; up] s = Some s' ∧
        (releases_all up = true ↔ up = PointerUp idx ∧ type item = white) ∧
        (releases_all up = false → activeKeys s' = activeKeys s) ∧
        (releases_all up = true → activeKeys s' = ∅).
Proof.
  intros Hi Hd Hu Hn.
  assert (step props down s = handlePointerDown props idx s) as Hdown.
  { destruct down; try done; simpl in Hd; cbn [step].
    - by eapply handleKeyDown_released.
    - by rewrite Hd. }
  eexists. cbn [run]. rewrite Hdown, (handlePointerDown_eq _ _ _ Hi).
  cbn [mbind option_bind]. rewrite (step_note_up _ _ _ _ Hi Hu).
  cbn [mbind option_bind]. split; [done|].
  split; [by apply releases_all_note_up|]. cbn zeta. split.
  - intros ->. cbn [activeKeys].
    rewrite difference_union_distr_l_L, difference_diag_L, union_empty_l_L.
    by apply difference_disjoint_L, disjoint_singleton_r.
  - by intros ->.
Qed.

Lemma handleGlobalPointerUp_calls s :
  calls (handleGlobalPointerUp s) = calls s.
Proof. reflexivity. Qed.

(** C4.  Release-all returns a state for every state, whose active set
    is empty whatever was held; the [stop] of a note that has no voice
    returns the synthesizer unchanged; and in a reachable state the sweep
    empties the table and leaves no node sounding. *)
Theorem release_all_clears s :
  step props GlobalPointerUp s = Some (handleGlobalPointerUp s) ∧
  activeKeys (handleGlobalPointerUp s) = ∅ ∧
  (∀ nt sy, oscillators sy !! nt = None → stop nt sy = sy) ∧
  (reachable props s →
   oscillators (synth (handleGlobalPointerUp s)) = ∅ ∧
   ∀ id o, nodes (synth (handleGlobalPointerUp s)) !! id = Some o →
           osc_playing o = false).
Proof.
  split; [done|]. split; [done|]. split; [apply stop_absent|].
  intros Hs.
  assert (reachable props (handleGlobalPointerUp s)) as Hs'
    by (by eapply reachable_step with (e := GlobalPointerUp)).
  assert (oscillators (synth (handleGlobalPointerUp s)) = ∅) as Hempty.
  { apply map_eq. intros n. rewrite lookup_empty.
    destruct (_ !! n) as [id|] eqn:Hn; [|done].
    rewrite synth_handleGlobalPointerUp in Hn.
    apply oscillators_stop_all in Hn as [Hn Hnot].
    destruct (reachable_held_inv _ _ Hs _ _ Hn)
      as (i & it & [_ Hit]%at_index_lookup & <- & _).
    destruct Hnot. apply list_elem_of_fmap. exists it. split; [done|].
    by eapply list_elem_of_lookup_2. }
  split; [done|]. intros id o Ho.
  destruct (osc_playing o) eqn:Hp; [|done].
  pose proof (synth_reachable_inv _ (reachable_synth_reachable _ _ Hs')) as [H1 _ _].
  specialize (H1 _ _ Ho Hp). rewrite Hempty, lookup_empty in H1. done.
Qed.
End Handlers.

(** ** Concrete runs *)

Lemma run_reachable props es s s' :
  reachable props s → run props es s = Some s' → reachable props s'.
Proof.
  revert s. induction es as [|e es IH]; intros s Hs; cbn [run].
  - by intros [= <-].
  - destruct (step props e s) as [s1|] eqn:H1; [|done]. simpl.
    apply IH. by eapply reachable_step.
Qed.

Lemma key_repeat_is_noop_witness :
  reachable App_props initial_state ∧
  ∃ s1, handleKeyDown App_props "KeyQ" initial_state = Some s1 ∧
        handleKeyDown App_props "KeyQ" s1 = Some s1 ∧
        activeKeys s1 = {[0%Z]} ∪ ∅ ∧
        calls s1 = [NoteDown "C4" 0] ∧
        length (nodes (synth s1)) = 1%nat.
Proof.
  split; [apply reachable_init|].
  destruct (key_repeat_is_noop App_props "KeyQ" initial_state 0%Z _
              (reachable_init _) eq_refl eq_refl) as [_ H].
  destruct (H (not_elem_of_empty _)) as (s1 & H1 & H2 & _ & H3 & H4 & H5 & _).
  exists s1. repeat split; [done..|]. by rewrite H5.
Defined.

(** The state in which the Q key is held. *)
Lemma run_KeyQ :
  ∃ s, run App_props [KeyDown "KeyQ"] initial_state = Some s ∧
       activeKeys s = {[0%Z]} ∪ ∅ ∧
       oscillators (synth s) = <["C4" := 0%nat]> ∅ ∧
       length (nodes (synth s)) = 1%nat.
Proof. eexists. split; [reflexivity|]. by repeat split. Qed.

(** The scenario of the specification: Q pressed, repeated by the
    keyboard, released. *)
Example scenario_press_repeat_release_Q :
  ∃ s, run App_props [KeyDown "KeyQ"; KeyDown "KeyQ"; KeyUp "KeyQ"] initial_state
         = Some s ∧
       calls s = [NoteDown "C4" 0; NoteUp "C4" 0] ∧
       activeKeys s = ∅ ∧
       oscillators (synth s) = ∅ ∧
       length (nodes (synth s)) = 1%nat.
Proof. eexists. split; [reflexivity|]. by repeat split. Qed.

(** A voice that is never stopped ends by itself; [stop] afterwards finds
    nothing to do. *)
Example scenario_voice_expires :
  ∃ s, run App_props [KeyDown "KeyU"; Ended 0] initial_state = Some s ∧
       oscillators (synth s) = ∅ ∧
       live_voices (synth s) "B4" = [] ∧
       stop "B4" (synth s) = synth s.
Proof. eexists. split; [reflexivity|]. by repeat split. Qed.

(** C5, as stated, fails: at start-up no note is active, and the key-up of
    Q (or the handler of a pointer release or leave on the C key) invokes
    [onNoteUp]; and with E held, a release of the pointer on the C key,
    which is not active, empties the active set and stops the voice of E. *)
Lemma note_up_on_released_key_calls_back :
  (0%Z ∉ activeKeys initial_state) ∧
  calls initial_state = [] ∧
  (∃ s', handleKeyUp App_props "KeyQ" initial_state = Some s' ∧
         calls s' = [NoteUp "C4" 0] ∧ s' ≠ initial_state) ∧
  (∃ s', handlePointerUp App_props 0 initial_state = Some s' ∧
         calls s' = [NoteUp "C4" 0] ∧ s' ≠ initial_state) ∧
  (∃ s s', run App_props [KeyDown "KeyE"] initial_state = Some s ∧
           (0%Z ∉ activeKeys s) ∧
           step App_props (PointerUp 0) s = Some s' ∧
           activeKeys s' ≠ activeKeys s ∧
           length (live_voices (synth s) "E4") = 1%nat ∧
           length (live_voices (synth s') "E4") = 0%nat).
Proof.
  split; [apply not_elem_of_empty|]. split; [done|].
  split; [|split];
    [eexists; split; [reflexivity|]; split; [reflexivity|];
     intros H; apply (f_equal calls) in H; discriminate H..|].
  eexists _, _. split; [reflexivity|].
  split; [by apply (bool_decide_unpack _)|].
  split; [reflexivity|]. split; [|split; reflexivity].
  match goal with |- activeKeys ?a ≠ activeKeys ?b =>
    change (activeKeys a) with (∅ : gset Z);
    change (activeKeys b) with ({[4%Z]} ∪ ∅ : gset Z)
  end.
  intros H.
  assert (4%Z ∈ (∅ : gset Z)) as H4
    by (rewrite H; apply elem_of_union_l, elem_of_singleton; reflexivity).
  by apply elem_of_empty in H4.
Qed.

Lemma note_up_on_released_key_witness :
  reachable App_props initial_state ∧
  (0%Z ∉ activeKeys initial_state) ∧
  (∃ s', step App_props (KeyUp "KeyQ") initial_state = Some s' ∧
         activeKeys s' = activeKeys initial_state ∧
         synth s' = synth initial_state ∧
         calls s' = calls initial_state ++ [NoteUp "C4" 0]) ∧
  (∃ s', step App_props (PointerUp 0) initial_state = Some s' ∧
         activeKeys s' = ∅ ∧
         synth s' = synth (handleGlobalPointerUp initial_state) ∧
         calls s' = calls initial_state ++ [NoteUp "C4" 0]).
Proof.
  split; [apply reachable_init|]. split; [apply not_elem_of_empty|]. split.
  - destruct (note_up_on_released_key App_props (KeyUp "KeyQ") 0%Z _ initial_state
                (reachable_init _) eq_refl eq_refl (not_elem_of_empty _))
      as (s' & H1 & _ & H2 & _ & H3 & _).
    exists s'. destruct (H3 eq_refl) as [H4 H5].
    split; [exact H1|]. split; [exact H4|]. split; [exact H5|exact (H2 eq_refl)].
  - destruct (note_up_on_released_key App_props (PointerUp 0) 0%Z _ initial_state
                (reachable_init _) eq_refl eq_refl (not_elem_of_empty _))
      as (s' & H1 & _ & H2 & _ & _ & H3).
    exists s'. destruct (H3 eq_refl) as [H4 H5].
    split; [exact H1|]. split; [exact H4|]. split; [exact H5|exact (H2 eq_refl)].
Defined.

(** C6, as stated, fails when the note is already in the active set: with
    Q held, a press and release of the C key (or a repeated key-down and
    the key-up) ends with the set empty.  It also fails for a note that is
    not in the set when the release is a release of the pointer on a white
    key: with E held, a press and release of the C key ends with the set
    empty. *)
Lemma note_down_up_held_key_not_restored :
  (∃ s, run App_props [KeyDown "KeyQ"] initial_state = Some s ∧
        (0%Z ∈ activeKeys s) ∧
        (∃ s', run App_props [PointerDown 0; PointerUp 0] s = Some s' ∧
               activeKeys s' ≠ activeKeys s) ∧
        (∃ s', run App_props [KeyDown "KeyQ"; KeyUp "KeyQ"] s = Some s' ∧
               activeKeys s' ≠ activeKeys s)) ∧
  (∃ s, run App_props [KeyDown "KeyE"] initial_state = Some s ∧
        (0%Z ∉ activeKeys s) ∧
        (∃ s', run App_props [PointerDown 0; PointerUp 0] s = Some s' ∧
               activeKeys s' ≠ activeKeys s)).
Proof.
  split.
  - eexists. split; [reflexivity|]. cbn [activeKeys].
    split; [set_solver|].
    split; (eexists; split; [reflexivity|]; cbn [activeKeys]; set_solver).
  - eexists. split; [reflexivity|].
    split; [by apply (bool_decide_unpack _)|].
    eexists. split; [reflexivity|].
    match goal with |- activeKeys ?a ≠ activeKeys ?b =>
      change (activeKeys a) with (∅ : gset Z);
      change (activeKeys b) with ({[4%Z]} ∪ ∅ : gset Z)
    end.
    intros H.
    assert (4%Z ∈ (∅ : gset Z)) as H4
      by (rewrite H; apply elem_of_union_l, elem_of_singleton; reflexivity).
    by apply elem_of_empty in H4.
Qed.

Lemma note_down_up_round_trip_witness :
  let s := {| activeKeys := {[2%Z]}; synth := initial_synth; calls := [] |} in
  (0%Z ∉ activeKeys s) ∧
  (∃ s', run App_props [PointerDown 0; KeyUp "KeyQ"] s = Some s' ∧
         activeKeys s' = activeKeys s) ∧
  (∃ s', run App_props [PointerDown 1; PointerUp 1] s = Some s' ∧
         activeKeys s' = activeKeys s) ∧
  (∃ s', run App_props [PointerDown 0; PointerUp 0] s = Some s' ∧
         activeKeys s' = ∅).
Proof.
  intros s.
  assert (0%Z ∉ activeKeys s) as Hn0 by (subst s; simpl; set_solver).
  assert (1%Z ∉ activeKeys s) as Hn1 by (subst s; simpl; set_solver).
  split; [exact Hn0|]. split; [|split].
  - destruct (note_down_up_round_trip App_props (PointerDown 0) (KeyUp "KeyQ")
                0%Z _ s eq_refl eq_refl eq_refl Hn0) as (s' & H1 & _ & H2 & _).
    exists s'. split; [exact H1|exact (H2 eq_refl)].
  - destruct (note_down_up_round_trip App_props (PointerDown 1) (PointerUp 1)
                1%Z _ s eq_refl eq_refl eq_refl Hn1) as (s' & H1 & _ & H2 & _).
    exists s'. split; [exact H1|exact (H2 eq_refl)].
  - destruct (note_down_up_round_trip App_props (PointerDown 0) (PointerUp 0)
                0%Z _ s eq_refl eq_refl eq_refl Hn0) as (s' & H1 & _ & _ & H2).
    exists s'. split; [exact H1|exact (H2 eq_refl)].
Defined.

(** C9, as stated, fails where it says that [play] is then a no-op for the
    voices: with Q held and its voice ended (620 ms after the key-down), a
    pointer press on the C key finds the note in the active set and creates
    a second node, which sounds. *)
Lemma pointer_press_on_held_key_new_voice :
  ∃ s s', run App_props [KeyDown "KeyQ"; Ended 0] initial_state = Some s ∧
          (0%Z ∈ activeKeys s) ∧
          handlePointerDown App_props 0 s = Some s' ∧
          activeKeys s' = activeKeys s ∧
          length (nodes (synth s)) = 1%nat ∧
          length (live_voices (synth s) "C4") = 0%nat ∧
          length (nodes (synth s')) = 2%nat ∧
          length (live_voices (synth s') "C4") = 1%nat ∧
          synth s' ≠ synth s.
Proof.
  eexists _, _. split; [reflexivity|]. split; [cbn [activeKeys]; set_solver|].
  split; [reflexivity|]. split; [cbn [activeKeys]; set_solver|].
  split; [reflexivity|]. split; [reflexivity|].
  split; [reflexivity|]. split; [reflexivity|].
  intros H. apply (f_equal (λ sy, length (nodes sy))) in H. discriminate H.
Qed.

Lemma pointer_press_on_held_key_witness :
  let s := {| activeKeys := {[0%Z]}; synth := play "C4" initial_synth; calls := [] |} in
  (0%Z ∈ activeKeys s) ∧
  ∃ s', handlePointerDown App_props 0 s = Some s' ∧
        activeKeys s' = activeKeys s ∧
        calls s' = calls s ++ [NoteDown "C4" 0] ∧
        nodes (synth s') = nodes (synth s) ∧
        oscillators (synth s') = oscillators (synth s) ∧
        handleKeyDown App_props "KeyQ" s = Some s.
Proof.
  intros s.
  assert (0%Z ∈ activeKeys s) as Hin by (subst s; simpl; set_solver).
  split; [exact Hin|].
  destruct (pointer_press_on_held_key App_props 0%Z _ s eq_refl Hin)
    as (s' & H1 & H2 & _ & H3 & _ & H4 & _ & H5).
  exists s'. split; [exact H1|]. split; [exact H2|].
  split; [exact (H3 eq_refl)|].
  destruct H4 as [H4 H4']; [by eexists|].
  split; [exact H4|]. split; [exact H4'|]. exact (H5 "KeyQ" eq_refl).
Defined.

Lemma release_all_clears_witness :
  ∃ s, run App_props [KeyDown "KeyQ"; PointerDown 3; KeyDown "KeyY"] initial_state = Some s ∧
       reachable App_props s ∧
       size (activeKeys s) = 3%nat ∧
       activeKeys (handleGlobalPointerUp s) = ∅ ∧
       oscillators (synth (handleGlobalPointerUp s)) = ∅ ∧
       ∀ id o, nodes (synth (handleGlobalPointerUp s)) !! id = Some o →
               osc_playing o = false.
Proof.
  eexists. split; [reflexivity|].
  match goal with |- reachable _ ?s ∧ _ =>
    assert (reachable App_props s) as Hs
      by (eapply (run_reachable _ [KeyDown "KeyQ"; PointerDown 3; KeyDown "KeyY"]);
          [apply reachable_init|reflexivity]);
    destruct (release_all_clears App_props s) as (_ & H1 & _ & H2)
  end.
  split; [exact Hs|]. split; [by vm_compute|]. split; [exact H1|]. exact (H2 Hs).
Defined.

(** ** Layout *)

Lemma whiteKeys_order :
  (λ keyObj, (label keyObj.1, keyObj.2)) <$> whiteKeys
  = [("C", 0); ("D", 2); ("E", 4); ("F", 5); ("G", 7); ("A", 9); ("B", 11)]%Z.
Proof. reflexivity. Qed.

Lemma blackKeys_order :
  (λ keyObj, (note keyObj.1, keyObj.2)) <$> blackKeys
  = [("C#4", 1); ("D#4", 3); ("F#4", 6); ("G#4", 8); ("A#4", 10)]%Z.
Proof. reflexivity. Qed.

Lemma keyWidthPercent_value : (keyWidthPercent == 100 # 7)%Q.
Proof. reflexivity. Qed.

(** The white lanes have the same width and follow one another. *)
Lemma lanes_equal_width i :
  (laneRight i - laneLeft i == keyWidthPercent)%Q ∧
  (laneRight i == laneLeft (i + 1))%Q.
Proof.
  unfold laneRight, laneLeft. rewrite inject_Z_plus. split; ring.
Qed.

Lemma betweenLanes_border i : (betweenLanes i == laneRight i)%Q.
Proof.
  unfold betweenLanes, laneCenter, laneRight, laneLeft.
  rewrite inject_Z_plus. field.
Qed.

(** The adjacency table: a black key to the right of the white keys
    number 0, 1, 3, 4 and 5 (C, D, F, G, A), none to the right of number 2
    (E) or 6 (B). *)
Lemma blackKeyToWhiteLeftIdx_table :
  map_to_list blackKeyToWhiteLeftIdx
    ≡ₚ [("C#4", 0); ("D#4", 1); ("F#4", 3); ("G#4", 4); ("A#4", 5)]%Z.
Proof.
  unfold blackKeyToWhiteLeftIdx. apply map_to_list_to_map.
  apply (bool_decide_unpack _). vm_compute. reflexivity.
Qed.

Lemma no_black_key_after_E_or_B nt i :
  blackKeyToWhiteLeftIdx !! nt = Some i → i ≠ 2%Z ∧ i ≠ 6%Z.
Proof.
  intros H. apply elem_of_map_to_list in H.
  rewrite blackKeyToWhiteLeftIdx_table in H.
  rewrite !elem_of_cons, elem_of_nil in H.
  repeat (destruct H as [[= -> ->]|H]; [done|]). destruct H.
Qed.

(** C8.  Where the layout misses the claim: the offset of each black key is
    [(leftWhiteIdx + 1) * keyWidthPercent - keyWidthPercent / 2], so the
    key drawn from it is centred on the middle of the white lane to its
    left, half a lane short of the border between its two neighbours.  The
    table of the second version holds the same percentages. *)
Theorem black_key_centered_on_left_lane :
  Forall (λ '(nt, i),
            blackKeyToWhiteLeftIdx !! nt = Some i ∧
            ∃ q, getBlackKeyOffset nt = Percent q ∧
                 let c := center (blackKeyLeft q) blackKeyWidth in
                 (black_widths c == 0)%Q ∧
                 (percent c == laneCenter i)%Q ∧
                 ¬ (percent c == betweenLanes i)%Q ∧
                 (betweenLanes i - percent c == keyWidthPercent / 2)%Q)
         [("C#4", 0); ("D#4", 1); ("F#4", 3); ("G#4", 4); ("A#4", 5)]%Z ∧
  Forall (λ p, (bk_percent p == laneCenter (between p).1)%Q ∧
               ¬ (bk_percent p == betweenLanes (between p).1)%Q)
         blackKeyPositions.
Proof.
  split.
  - repeat (constructor;
            [split; [reflexivity|];
             eexists; split; [reflexivity|];
             repeat split; try reflexivity;
             intros H; vm_compute in H; discriminate H|]).
    constructor.
  - unfold blackKeyPositions.
    repeat (constructor;
            [split; [reflexivity|intros H; vm_compute in H; discriminate H]|]).
    constructor.
Qed.

Example getBlackKeyOffset_Cs4 :
  ∃ q, getBlackKeyOffset "C#4" = Percent q ∧ (q == 50 # 7)%Q ∧
       (betweenLanes 0 == 100 # 7)%Q.
Proof. eexists. by repeat split. Qed.

Example getBlackKeyOffset_white : getBlackKeyOffset "C4" = null.
Proof. reflexivity. Qed.

(** * Further properties of the code *)

(** ** Key lookup *)

Lemma at_end_toUpperCase k : at_end (toUpperCase k) = at_end k.
Proof. by destruct k. Qed.

Lemma findIndex_from_found {A} (p : A → bool) (l : list A) (i : Z) :
  (0 ≤ i)%Z → findIndex_from p l i ≠ (-1)%Z →
  ∃ x, l !! Z.to_nat (findIndex_from p l i - i) = Some x ∧ p x = true.
Proof.
  revert i. induction l as [|x l IH]; intros i Hi; simpl; [done|].
  destruct (p x) eqn:Hp.
  - intros _. exists x. by rewrite Z.sub_diag.
  - intros Hne. destruct (IH (i + 1)%Z ltac:(lia) Hne) as (y & Hy & Hpy).
    exists y. split; [|done].
    destruct (findIndex_from_range p l (i + 1)%Z ltac:(lia)) as [|[Hle _]]; [done|].
    replace (Z.to_nat (findIndex_from p l (i + 1) - i))
      with (S (Z.to_nat (findIndex_from p l (i + 1) - (i + 1)))) by lia.
    done.
Qed.

Lemma findIndex_from_absent {A} (p : A → bool) (l : list A) (i : Z) :
  (0 ≤ i)%Z → findIndex_from p l i = (-1)%Z → Forall (λ x, p x = false) l.
Proof.
  revert i. induction l as [|x l IH]; intros i Hi; simpl; [constructor|].
  destruct (p x) eqn:Hp; [lia|].
  intros H. constructor; [done|]. apply (IH (i + 1)%Z); [lia|done].
Qed.

(** X1.  The key lookup ignores case: two characters with the same upper
    case resolve to the same index. *)
Theorem getNoteIndexFromKey_case_insensitive (k k' : string) :
  toUpperCase k = toUpperCase k' →
  getNoteIndexFromKey k = getNoteIndexFromKey k'.
Proof.
  intros H. unfold getNoteIndexFromKey.
  rewrite <- (at_end_toUpperCase k), <- (at_end_toUpperCase k'), H.
  reflexivity.
Qed.

Lemma getNoteIndexFromKey_case_insensitive_witness :
  toUpperCase "q" = toUpperCase "Q" ∧
  getNoteIndexFromKey "q" = getNoteIndexFromKey "Q".
Proof.
  split; [reflexivity|].
  exact (getNoteIndexFromKey_case_insensitive "q" "Q" eq_refl).
Defined.

(** X2.  What the key lookup returns: -1 when the character is empty or no
    entry is bound to it (ignoring case), and otherwise the index of an
    entry of the table that is bound to it. *)
Theorem getNoteIndexFromKey_spec (k : string) :
  (getNoteIndexFromKey k = (-1)%Z ∧
   (k = "" ∨ ∀ item, item ∈ KEYBOARD_NOTE_MAP →
                     toUpperCase (key item) ≠ toUpperCase k)) ∨
  (∃ item, at_index KEYBOARD_NOTE_MAP (getNoteIndexFromKey k) = Some item ∧
           k ≠ "" ∧ toUpperCase (key item) = toUpperCase k).
Proof.
  unfold getNoteIndexFromKey. destruct k as [|c k]; [left; auto|].
  cbn [at_end]. unfold findIndex.
  match goal with |- context [findIndex_from ?p ?l 0%Z] =>
    set (f := p); destruct (decide (findIndex_from f l 0%Z = (-1)%Z)) as [Hn|Hs]
  end.
  - left. split; [done|]. right. intros item Hin.
    apply (findIndex_from_absent f _ 0%Z ltac:(lia)) in Hn.
    rewrite Forall_forall in Hn. specialize (Hn _ Hin). subst f. simpl in Hn.
    by apply String.eqb_neq in Hn.
  - right.
    destruct (findIndex_from_found f KEYBOARD_NOTE_MAP 0%Z ltac:(lia) Hs)
      as (item & Hitem & Hp).
    destruct (findIndex_from_range f KEYBOARD_NOTE_MAP 0%Z ltac:(lia))
      as [|[Hle _]]; [done|].
    exists item. rewrite Z.sub_0_r in Hitem. split; [|split; [done|]].
    + unfold at_index. by rewrite (proj2 (Z.ltb_ge _ _) Hle).
    + subst f. simpl in Hp. by apply String.eqb_eq in Hp.
Qed.

(** X3.  Every entry of the table is found under its own key, at its own
    index: no binding is shadowed by an earlier one. *)
Theorem getNoteIndexFromKey_own_key (idx : Z) (item : NoteDefinition) :
  at_index KEYBOARD_NOTE_MAP idx = Some item →
  getNoteIndexFromKey (key item) = idx.
Proof.
  intros [H0 H]%at_index_lookup.
  rewrite <- (Z2Nat.id idx H0). revert H. generalize (Z.to_nat idx).
  intros n.
  do 12 (destruct n as [|n]; [intros [= <-]; reflexivity|]).
  done.
Qed.

Lemma getNoteIndexFromKey_own_key_witness :
  getNoteIndexFromKey "7" = 10%Z.
Proof.
  exact (getNoteIndexFromKey_own_key 10
           {| note := "A#4"; label := "A#"; key := "7"; type := black |} eq_refl).
Defined.

(** ** Note names and frequencies *)

(** X4.  Every name of the twelve-name table followed by an octave digit
    is given the MIDI number [12 * (octave + 1) + position in the table]. *)
Theorem noteNameToMidi_parses (i : nat) (n : string) (d : ascii) :
  notes !! i = Some n →
  is_digit d = true →
  noteNameToMidi (n ++ String d EmptyString)
  = (12 * (digit_value d + 1) + Z.of_nat i)%Z.
Proof.
  intros Hn Hd. apply is_digit_digits in Hd. revert Hd.
  unfold decimal_digits. rewrite !elem_of_cons, elem_of_nil. intros Hd.
  revert Hn.
  do 12 (destruct i as [|i];
         [intros [= <-];
          repeat (destruct Hd as [->|Hd]; [reflexivity|]); destruct Hd|]).
  done.
Qed.

Lemma noteNameToMidi_parses_witness : noteNameToMidi "G#2" = 44%Z.
Proof. exact (noteNameToMidi_parses 8 "G#" "2" eq_refl eq_refl). Defined.

Lemma PitchName_midi_bounds s :
  PitchName s → (11 ≤ noteNameToMidi s ≤ 131)%Z.
Proof.
  intros [l d Hl Hd|l d Hl Hd]; revert Hl Hd;
    unfold pitch_letters, decimal_digits;
    rewrite !elem_of_cons, !elem_of_nil; intros Hl Hd;
    repeat (destruct Hl as [->|Hl];
            [repeat (destruct Hd as [->|Hd]; [by vm_compute|]); destruct Hd|]);
    destruct Hl.
Qed.

(** X5.  Whatever the string, the MIDI number is between 11 and 131 and
    the frequency is positive. *)
Theorem noteNameToMidi_bounds (s : string) :
  (11 ≤ noteNameToMidi s ≤ 131)%Z ∧ (0 < noteToFrequency s)%R.
Proof.
  split.
  - destruct (match_note s) as [[n o]|] eqn:Hm.
    + apply PitchName_midi_bounds. by eapply match_note_sound.
    + unfold noteNameToMidi. rewrite Hm. lia.
  - unfold noteToFrequency, midiToFrequency, Rpower.
    apply Rmult_lt_0_compat; [lra|apply exp_pos].
Qed.

Lemma midiToFrequency_lt m m' :
  (m < m')%Z → (midiToFrequency m < midiToFrequency m')%R.
Proof.
  intros H. unfold midiToFrequency.
  apply Rmult_lt_compat_l; [lra|]. apply Rpower_lt; [lra|].
  apply IZR_lt in H. lra.
Qed.

(** X6.  The frequency grows with the MIDI number, strictly: of two note
    names, the one with the larger MIDI number has the larger frequency,
    and conversely. *)
Theorem noteToFrequency_increasing (a b : string) :
  (noteNameToMidi a < noteNameToMidi b)%Z ↔
  (noteToFrequency a < noteToFrequency b)%R.
Proof.
  unfold noteToFrequency. split; [apply midiToFrequency_lt|].
  intros H.
  destruct (Z.lt_trichotomy (noteNameToMidi a) (noteNameToMidi b))
    as [Hlt|[Heq|Hgt]]; [done| |].
  - rewrite Heq in H. lra.
  - apply midiToFrequency_lt in Hgt. lra.
Qed.

(** ** The synthesizer's operations *)

Lemma play_unfold nt s :
  play nt s =
  if truthy_at (oscillators s) nt then getCtx s
  else {| audioCtx := true;
          nodes := nodes s ++ [createOscillator nt (noteToFrequency nt)];
          oscillators := <[nt := length (nodes s)]> (oscillators s) |}.
Proof.
  unfold play. rewrite oscillators_getCtx.
  destruct (truthy_at (oscillators s) nt); [done|].
  by rewrite audioCtx_getCtx, nodes_getCtx.
Qed.

Lemma stop_unfold nt id s :
  oscillators s !! nt = Some id →
  stop nt s = {| audioCtx := audioCtx s;
                 nodes := alter silence id (nodes s);
                 oscillators := delete nt (oscillators s) |}.
Proof. intros H. unfold stop. by rewrite (truthy_at_Some _ _ _ H), H. Qed.

Lemma silence_silence o : silence (silence o) = silence o.
Proof. reflexivity. Qed.

Lemma alter_silence_twice id (l : list Oscillator) :
  alter silence id (alter silence id l) = alter silence id l.
Proof. rewrite list_alter_alter_eq. by apply list_alter_ext. Qed.

(** X8.  [play] and [stop] are idempotent: a second call with the same
    note, right after the first, changes nothing, in any state. *)
Theorem play_stop_idempotent (nt : string) (s : Synth) :
  play nt (play nt s) = play nt s ∧ stop nt (stop nt s) = stop nt s.
Proof.
  split.
  - rewrite (play_unfold nt s).
    destruct (truthy_at (oscillators s) nt) eqn:Ht.
    + rewrite play_unfold, oscillators_getCtx, Ht.
      apply getCtx_created, audioCtx_getCtx.
    + rewrite play_unfold. cbn [oscillators].
      rewrite (truthy_at_Some _ _ (length (nodes s))) by apply lookup_insert_eq.
      by apply getCtx_created.
  - apply stop_absent. rewrite oscillators_stop. apply lookup_delete_eq.
Qed.

Lemma filter_alter_outside {A} (P : A → Prop) `{!∀ x, Decision (P x)}
    (f : A → A) (l : list A) (i : nat) :
  (∀ x, l !! i = Some x → ¬ P x ∧ ¬ P (f x)) →
  filter P (alter f i l) = filter P l.
Proof.
  revert i. induction l as [|a l IH]; intros i Hi; [done|].
  destruct i as [|i].
  - change (alter f 0%nat (a :: l)) with (f a :: l).
    destruct (Hi a eq_refl) as [H1 H2].
    by rewrite !filter_cons_False.
  - change (alter f (S i) (a :: l)) with (a :: alter f i l).
    rewrite !filter_cons, (IH i); [done|]. intros x Hx. by apply Hi.
Qed.

Lemma live_voices_no_entry s nt :
  synth_inv s → oscillators s !! nt = None → live_voices s nt = [].
Proof.
  intros [H1 _ _] Hn. unfold live_voices.
  destruct (filter _ (nodes s)) as [|o l] eqn:Hf; [done|].
  assert (o ∈ filter (λ o, osc_playing o = true ∧ osc_note o = nt) (nodes s))
    as Ho by (rewrite Hf; left).
  apply list_elem_of_filter in Ho as [[Hp Hnt] Ho].
  apply list_elem_of_lookup in Ho as [id Hid].
  specialize (H1 _ _ Hid Hp). congruence.
Qed.

(** X9.  In a reachable state of the synthesizer, [play] on a note that
    has no table entry leaves exactly one voice of that note sounding: a
    triangle oscillator at the note's frequency with the fixed envelope;
    and after [stop] no voice of the note sounds and the note has no table
    entry. *)
Theorem play_then_stop_voice (nt : string) (s : Synth) :
  synth_reachable s →
  (truthy_at (oscillators s) nt = false →
   live_voices (play nt s) nt = [createOscillator nt (noteToFrequency nt)]) ∧
  live_voices (stop nt s) nt = [] ∧
  oscillators (stop nt s) !! nt = None.
Proof.
  intros Hs%synth_reachable_inv. split; [|split].
  - intros Ht. rewrite play_unfold, Ht. unfold live_voices. cbn [nodes].
    rewrite filter_app.
    fold (live_voices s nt).
    rewrite (live_voices_no_entry _ _ Hs (truthy_at_false _ _ Ht)).
    by rewrite filter_cons_True.
  - apply live_voices_no_entry; [by apply synth_inv_stop|].
    rewrite oscillators_stop. apply lookup_delete_eq.
  - rewrite oscillators_stop. apply lookup_delete_eq.
Qed.

Lemma play_then_stop_voice_witness :
  synth_reachable (play "C4" initial_synth) ∧
  live_voices (play "D4" (play "C4" initial_synth)) "D4"
    = [createOscillator "D4" (noteToFrequency "D4")] ∧
  live_voices (stop "C4" (play "C4" initial_synth)) "C4" = [].
Proof.
  split; [exact synth_reachable_play_C4|].
  destruct (play_then_stop_voice "D4" _ synth_reachable_play_C4) as [H _].
  destruct (play_then_stop_voice "C4" _ synth_reachable_play_C4) as (_ & H' & _).
  split; [exact (H eq_refl)|exact H'].
Defined.

(** X10.  Notes do not interfere: in a reachable state, [play] and [stop]
    of one note change neither the table entry nor the sounding voices of
    any other note. *)
Theorem other_notes_untouched (a b : string) (s : Synth) :
  synth_reachable s →
  a ≠ b →
  oscillators (play a s) !! b = oscillators s !! b ∧
  live_voices (play a s) b = live_voices s b ∧
  oscillators (stop a s) !! b = oscillators s !! b ∧
  live_voices (stop a s) b = live_voices s b.
Proof.
  intros Hs%synth_reachable_inv Hab. repeat split.
  - rewrite play_unfold. destruct (truthy_at _ a);
      [by rewrite oscillators_getCtx|]. cbn [oscillators].
    by rewrite lookup_insert_ne.
  - rewrite play_unfold. unfold live_voices.
    destruct (truthy_at _ a); [by rewrite nodes_getCtx|]. cbn [nodes].
    rewrite filter_app, filter_cons_False, filter_nil, app_nil_r; [done|].
    simpl. intros [_ ?]. done.
  - rewrite oscillators_stop. by rewrite lookup_delete_ne.
  - destruct (oscillators s !! a) as [id|] eqn:Ha; [|by rewrite stop_absent].
    rewrite (stop_unfold _ _ _ Ha). unfold live_voices. cbn [nodes].
    apply filter_alter_outside. intros o Ho.
    destruct Hs as [_ H2 _]. destruct (H2 _ _ Ha) as (o' & Ho' & Hn).
    assert (o' = o) as -> by congruence.
    split; simpl; intros [_ ?]; congruence.
Qed.

Lemma other_notes_untouched_witness :
  live_voices (stop "C4" (play "D4" (play "C4" initial_synth))) "D4"
  = live_voices (play "D4" (play "C4" initial_synth)) "D4".
Proof.
  assert (synth_reachable (play "D4" (play "C4" initial_synth))) as Hs.
  { eapply rtc_r; [exact synth_reachable_play_C4|apply step_play]. }
  assert ("C4" ≠ "D4") as Hne by discriminate.
  exact (proj2 (proj2 (proj2 (other_notes_untouched "C4" "D4" _ Hs Hne)))).
Defined.

(** X11.  The late [ended] event of a voice that [stop] has removed does
    nothing: not right after the [stop], and not after the note has been
    played again, when it leaves the new voice in the table and sounding. *)
Theorem ended_after_stop_is_noop (nt : string) (id : nat) (s : Synth) :
  synth_reachable s →
  oscillators s !! nt = Some id →
  onended id (stop nt s) = Some (stop nt s) ∧
  onended id (play nt (stop nt s)) = Some (play nt (stop nt s)).
Proof.
  intros Hs%synth_reachable_inv Hid.
  destruct Hs as [H1 H2 H3]. destruct (H2 _ _ Hid) as (o & Ho & Hn).
  pose proof (lookup_lt_Some _ _ _ Ho) as Hlt.
  assert (audioCtx s = true) as Hctx.
  { destruct (audioCtx s); [done|]. by rewrite H3 in Ho. }
  rewrite (stop_unfold _ _ _ Hid), Hctx. split.
  - unfold onended. cbn [nodes oscillators audioCtx].
    rewrite list_lookup_alter_eq, Ho. simpl. rewrite Hn.
    rewrite lookup_delete_eq, bool_decide_eq_false_2 by done.
    by rewrite alter_silence_twice.
  - rewrite play_unfold. cbn [nodes oscillators audioCtx].
    destruct (truthy_at (delete nt (oscillators s)) nt).
    + rewrite getCtx_created by done.
      unfold onended. cbn [nodes oscillators audioCtx].
      rewrite list_lookup_alter_eq, Ho. simpl. rewrite Hn.
      rewrite lookup_delete_eq, bool_decide_eq_false_2 by done.
      by rewrite alter_silence_twice.
    + unfold onended. cbn [nodes oscillators audioCtx].
      rewrite lookup_app_l by (by rewrite length_alter).
      rewrite list_lookup_alter_eq, Ho. simpl. rewrite Hn.
      rewrite lookup_insert_eq, length_alter.
      rewrite bool_decide_eq_false_2 by (intros [= ?]; lia).
      rewrite alter_app_l by (by rewrite length_alter).
      by rewrite alter_silence_twice.
Qed.

Lemma ended_after_stop_is_noop_witness :
  let s := play "C4" initial_synth in
  onended 0 (play "C4" (stop "C4" s)) = Some (play "C4" (stop "C4" s)).
Proof.
  exact (proj2 (ended_after_stop_is_noop "C4" 0 _ synth_reachable_play_C4 eq_refl)).
Defined.

(** X12.  When a voice ends by itself, its [ended] event removes it from
    the table; the note then has no sounding voice, and a later [stop] of
    the note finds nothing to do. *)
Theorem ended_removes_voice (nt : string) (id : nat) (s : Synth) :
  synth_reachable s →
  oscillators s !! nt = Some id →
  ∃ s', onended id s = Some s' ∧
        oscillators s' = delete nt (oscillators s) ∧
        live_voices s' nt = [] ∧
        stop nt s' = s'.
Proof.
  intros Hs%synth_reachable_inv Hid.
  destruct (inv_table _ Hs _ _ Hid) as (o & Ho & Hn).
  destruct (onended id s) as [s'|] eqn:He;
    [|unfold onended in He; by rewrite Ho in He].
  pose proof (synth_inv_onended _ _ _ He Hs) as Hs'.
  assert (oscillators s' = delete nt (oscillators s)) as Ht.
  { unfold onended in He. rewrite Ho in He. simpl in He.
    injection He as <-. cbn [oscillators]. rewrite Hn.
    by rewrite bool_decide_eq_true_2. }
  assert (oscillators s' !! nt = None) as Hnone
    by (rewrite Ht; apply lookup_delete_eq).
  exists s'. split; [done|]. split; [done|].
  split; [by apply live_voices_no_entry|by apply stop_absent].
Qed.

Lemma ended_removes_voice_witness :
  ∃ s', onended 0 (play "C4" initial_synth) = Some s' ∧
        oscillators s' = delete "C4" (oscillators (play "C4" initial_synth)) ∧
        live_voices s' "C4" = [] ∧
        stop "C4" s' = s'.
Proof.
  exact (ended_removes_voice "C4" 0 _ synth_reachable_play_C4 eq_refl).
Defined.

Lemma fixed_shape_silence o : fixed_shape o → fixed_shape (silence o).
Proof. by intros (? & ? & ? & ?). Qed.

Lemma synth_step_fixed_shape s s' :
  synth_step s s' → Forall fixed_shape (nodes s) → Forall fixed_shape (nodes s').
Proof.
  intros [nt s0|nt s0|id s0 s1 H] Hs.
  - rewrite play_unfold. destruct (truthy_at _ nt); [by rewrite nodes_getCtx|].
    cbn [nodes]. apply Forall_app. split; [done|]. by repeat constructor.
  - destruct (oscillators s0 !! nt) as [id|] eqn:Hid; [|by rewrite stop_absent].
    rewrite (stop_unfold _ _ _ Hid). cbn [nodes].
    apply Forall_alter; [done|]. intros o _. apply fixed_shape_silence.
  - unfold onended in H. destruct (nodes s0 !! id) as [o|]; [|done].
    injection H as <-. cbn [nodes].
    apply Forall_alter; [done|]. intros o' _. apply fixed_shape_silence.
Qed.

(** X13.  Every oscillator the synthesizer ever creates keeps the fixed
    shape: triangle wave, the frequency of its note, the envelope
    0 → 0.23 (10 ms) → 0.18 (180 ms) → 0 (550 ms), scheduled stop at 620 ms;
    [stop] and [ended] change nothing but whether it sounds. *)
Theorem voices_keep_fixed_shape (s : Synth) (id : nat) (o : Oscillator) :
  synth_reachable s →
  nodes s !! id = Some o →
  fixed_shape o.
Proof.
  intros Hs Ho. eapply Forall_lookup_1; [|exact Ho]. clear Ho.
  revert s Hs. apply rtc_ind_r; [constructor|].
  intros y z _ Hstep Hy. by eapply synth_step_fixed_shape.
Qed.

Lemma voices_keep_fixed_shape_witness :
  fixed_shape (silence (createOscillator "C4" (noteToFrequency "C4"))).
Proof.
  assert (synth_reachable (stop "C4" (play "C4" initial_synth))) as Hs.
  { eapply rtc_r; [exact synth_reachable_play_C4|apply step_stop]. }
  exact (voices_keep_fixed_shape _ 0 _ Hs eq_refl).
Defined.

(** ** The component's events *)

Section Events.
Variable props : Props.

(** The shapes a step can have. *)
Lemma step_cases e s s' :
  step props e s = Some s' →
  (s' = s ∧ ∃ code, e = KeyDown code ∨ e = KeyUp code) ∨
  (∃ idx item, at_index KEYBOARD_NOTE_MAP idx = Some item ∧ note_down idx e ∧
     s' = {| activeKeys := {[idx]} ∪ activeKeys s;
             synth := play (note item) (synth s);
             calls := call_onNoteDown props (note item) idx (calls s) |}) ∨
  (∃ idx item s1, at_index KEYBOARD_NOTE_MAP idx = Some item ∧ note_up idx e ∧
     s1 = {| activeKeys := activeKeys s ∖ {[idx]};
             synth := stop (note item) (synth s);
             calls := call_onNoteUp props (note item) idx (calls s) |} ∧
     (s' = s1 ∨ s' = handleGlobalPointerUp s1)) ∨
  (e = GlobalPointerUp ∧ s' = handleGlobalPointerUp s) ∨
  (∃ id sy, e = Ended id ∧ onended id (synth s) = Some sy ∧
     s' = {| activeKeys := activeKeys s; synth := sy; calls := calls s |}).
Proof.
  intros Hstep. destruct e as [code|code|idx|idx|idx| |id].
  - cbn [step] in Hstep. unfold handleKeyDown in Hstep.
    destruct (_ && _); [|injection Hstep as <-; left; eauto].
    destruct (at_index _ _) as [item|] eqn:Hi; [|done]. injection Hstep as <-.
    right; left. by exists (getNoteIndexFromKey (codeToKeyChar code)), item.
  - cbn [step] in Hstep. unfold handleKeyUp in Hstep.
    destruct (bool_decide _); [|injection Hstep as <-; left; eauto].
    destruct (at_index _ _) as [item|] eqn:Hi; [|done]. injection Hstep as <-.
    do 2 right; left.
    exists (getNoteIndexFromKey (codeToKeyChar code)), item. eexists.
    split; [done|]. split; [done|]. split; [done|]. by left.
  - cbn [step] in Hstep. unfold handlePointerDown in Hstep.
    destruct (at_index _ _) as [item|] eqn:Hi; [|done]. injection Hstep as <-.
    right; left. by exists idx, item.
  - apply step_PointerUp in Hstep as (s1 & H1 & Hor).
    cbn [step] in H1. unfold handlePointerUp in H1.
    destruct (at_index _ _) as [item|] eqn:Hi; [|done]. injection H1 as <-.
    do 2 right; left. exists idx, item. eexists.
    split; [done|]. split; [done|]. split; [done|].
    destruct Hor as [[_ ->]|[_ ->]]; auto.
  - cbn [step] in Hstep. unfold handlePointerUp in Hstep.
    destruct (at_index _ _) as [item|] eqn:Hi; [|done]. injection Hstep as <-.
    do 2 right; left. exists idx, item. eexists.
    split; [done|]. split; [done|]. split; [done|]. by left.
  - injection Hstep as <-. do 3 right; left. done.
  - cbn [step] in Hstep. unfold handleEnded in Hstep.
    destruct (onended id (synth s)) as [sy|] eqn:Hsy; [|done].
    injection Hstep as <-. do 4 right. by exists id, sy.
Qed.

(** X14.  A key code that resolves to no entry of the table is ignored by
    both keyboard handlers: the state, callbacks included, is returned as
    it was.  This is the case of every code that starts with neither "Key"
    nor "Digit". *)
Theorem unmapped_key_is_noop (code : string) (s : State) :
  (startsWith code "Key" = false → startsWith code "Digit" = false →
   getNoteIndexFromKey (codeToKeyChar code) = (-1)%Z) ∧
  (getNoteIndexFromKey (codeToKeyChar code) = (-1)%Z →
   step props (KeyDown code) s = Some s ∧ step props (KeyUp code) s = Some s).
Proof.
  split.
  - intros H1 H2. unfold codeToKeyChar. by rewrite H1, H2.
  - intros H. cbn [step]. unfold handleKeyDown, handleKeyUp. by rewrite H.
Qed.

(** X15.  The keyboard and the pointer take the same path: the key-up of a
    bound key does exactly what a pointer release on its key does, and its
    key-down does what a pointer press does whenever the note is not in
    the active set. *)
Theorem keyboard_as_pointer (code : string) (idx : Z) (item : NoteDefinition) (s : State) :
  getNoteIndexFromKey (codeToKeyChar code) = idx →
  at_index KEYBOARD_NOTE_MAP idx = Some item →
  handleKeyUp props code s = handlePointerUp props idx s ∧
  (idx ∉ activeKeys s →
   handleKeyDown props code s = handlePointerDown props idx s).
Proof.
  intros Hc Hi. split; [by eapply handleKeyUp_bound|].
  intros Hn. by eapply handleKeyDown_released.
Qed.

(** X16.  No event handler raises: the keyboard handlers return a state
    for every key code, release-all for every state, and the pointer
    handlers for every key that [render] draws. *)
Theorem handlers_never_raise (s0 s : State) :
  (∀ code, is_Some (step props (KeyDown code) s) ∧
           is_Some (step props (KeyUp code) s)) ∧
  is_Some (step props GlobalPointerUp s) ∧
  (∀ el, el ∈ render s0 →
         is_Some (step props (PointerDown (el_idx el)) s) ∧
         is_Some (step props (PointerUp (el_idx el)) s) ∧
         is_Some (step props (PointerLeave (el_idx el)) s)).
Proof.
  split; [|split].
  - intros code. split; [apply handleKeyDown_total|apply handleKeyUp_total].
  - by eexists.
  - intros el Hel.
    assert (el_idx el ∈ el_idx <$> render s0) as Hin
      by (apply list_elem_of_fmap; eauto).
    change (el_idx <$> render s0)
      with [0; 2; 4; 5; 7; 9; 11; 1; 3; 6; 8; 10]%Z in Hin.
    rewrite !elem_of_cons, elem_of_nil in Hin. cbn [step].
    unfold handlePointerDown, handlePointerUp.
    repeat (destruct Hin as [->|Hin]; [repeat split; by eexists|]).
    destruct Hin.
Qed.
End Events.

Lemma unmapped_key_is_noop_witness :
  step App_props (KeyDown "Space") initial_state = Some initial_state ∧
  step App_props (KeyUp "KeyA") initial_state = Some initial_state.
Proof.
  split.
  - destruct (unmapped_key_is_noop App_props "Space" initial_state) as [H1 H2].
    exact (proj1 (H2 (H1 eq_refl eq_refl))).
  - exact (proj2 (proj2 (unmapped_key_is_noop App_props "KeyA" initial_state)
                    eq_refl)).
Defined.

Lemma keyboard_as_pointer_witness :
  handleKeyUp App_props "Digit3" initial_state
  = handlePointerUp App_props 3 initial_state.
Proof.
  exact (proj1 (keyboard_as_pointer App_props "Digit3" 3 _ initial_state
                  eq_refl eq_refl)).
Defined.

Lemma handlers_never_raise_witness :
  is_Some (step App_props (PointerDown 10) initial_state).
Proof.
  destruct (handlers_never_raise App_props initial_state initial_state)
    as (_ & _ & H).
  refine (proj1 (H {| el_idx := 10; el_className := "piano-key black";
                      el_left := Some (Percent _); el_ariaLabel := "A#";
                      el_noteLabel := "A#"; el_keyLabel := "7" |} _)).
  apply (list_elem_of_lookup_2 _ 11%nat). reflexivity.
Defined.

(** ** Invariants of the reachable states *)

Lemma NoDup_fmap_filter {A B} (f : A → B) (P : A → Prop)
    `{!∀ x, Decision (P x)} (l : list A) :
  (∀ i j x y, l !! i = Some x → l !! j = Some y → P x → P y →
              f x = f y → i = j) →
  NoDup (f <$> filter P l).
Proof.
  induction l as [|a l IH]; intros Hl; [constructor|].
  assert (NoDup (f <$> filter P l)) as IH'.
  { apply IH. intros i j x y Hi Hj Px Py Hf.
    by specialize (Hl (S i) (S j) x y Hi Hj Px Py Hf) as [= ->]. }
  rewrite filter_cons. destruct (decide (P a)) as [Pa|]; [|done].
  rewrite fmap_cons. constructor; [|done].
  intros (y & Hf & Hy)%list_elem_of_fmap.
  apply list_elem_of_filter in Hy as [Py Hy].
  apply list_elem_of_lookup in Hy as [j Hj].
  by specialize (Hl 0%nat (S j) a y eq_refl Hj Pa Py Hf).
Qed.

(** The voices that sound, of all notes. *)
Lemma sounding_le_table s :
  synth_inv s →
  (length (filter (λ o, osc_playing o = true) (nodes s)) ≤ size (oscillators s))%nat.
Proof.
  intros [H1 _ _].
  rewrite <- (length_fmap osc_note), <- size_dom.
  unfold size at 1, set_size. simpl.
  apply submseteq_length, NoDup_submseteq.
  - apply NoDup_fmap_filter. intros i j x y Hi Hj Px Py Hf.
    pose proof (H1 _ _ Hi Px). pose proof (H1 _ _ Hj Py). congruence.
  - intros n (o & -> & Ho)%list_elem_of_fmap.
    apply list_elem_of_filter in Ho as [Hp Ho].
    apply list_elem_of_lookup in Ho as [id Hid].
    apply elem_of_elements, elem_of_dom. rewrite (H1 _ _ Hid Hp). by eexists.
Qed.

Section Invariants.
Variable props : Props.

(** X17.  In every reachable state the active set only holds indices of
    the table (0 to 11). *)
Theorem activeKeys_in_table (s : State) (idx : Z) :
  reachable props s →
  idx ∈ activeKeys s →
  is_Some (at_index KEYBOARD_NOTE_MAP idx) ∧ (0 ≤ idx < 12)%Z.
Proof.
  intros Hs Hin.
  assert (is_Some (at_index KEYBOARD_NOTE_MAP idx)) as [item Hi].
  { revert idx Hin. induction Hs as [|e s s' _ IH Hstep]; intros idx Hin.
    - by apply elem_of_empty in Hin.
    - destruct (step_cases _ _ _ _ Hstep)
        as [[-> _]|[(i & it & Hi & _ & ->)|
            [(i & it & s1 & Hi & _ & -> & [->| ->])|
            [[_ ->]|(id & sy & _ & _ & ->)]]]];
        cbn [activeKeys handleGlobalPointerUp] in Hin.
      + by apply IH.
      + apply elem_of_union in Hin as [->%elem_of_singleton|Hin]; [eauto|].
        by apply IH.
      + apply elem_of_difference in Hin as [Hin _]. by apply IH.
      + by apply elem_of_empty in Hin.
      + by apply elem_of_empty in Hin.
      + by apply IH. }
  split; [eauto|]. apply at_index_lookup in Hi as [H0 Hi].
  apply lookup_lt_Some in Hi. change (length KEYBOARD_NOTE_MAP) with 12%nat in Hi.
  lia.
Qed.

(** X18.  In every reachable state each sounding voice is the voice of a
    key that is held: its note is a note of the table whose index is in
    the active set. *)
Theorem sounding_voice_is_held (s : State) (id : nat) (o : Oscillator) :
  reachable props s →
  nodes (synth s) !! id = Some o →
  osc_playing o = true →
  ∃ idx item, at_index KEYBOARD_NOTE_MAP idx = Some item ∧
              note item = osc_note o ∧ idx ∈ activeKeys s.
Proof.
  intros Hs Ho Hp.
  pose proof (synth_reachable_inv _ (reachable_synth_reachable _ _ Hs)) as [H1 _ _].
  eapply reachable_held_inv; [exact Hs|]. by apply H1.
Qed.

(** X19.  In every reachable state the voices that sound are at most as
    many as the entries of the table, and these are at most twelve. *)
Theorem sounding_voices_bounded (s : State) :
  reachable props s →
  (length (filter (λ o, osc_playing o = true) (nodes (synth s)))
   ≤ size (oscillators (synth s)))%nat ∧
  (size (oscillators (synth s)) ≤ 12)%nat.
Proof.
  intros Hs. split.
  - apply sounding_le_table, synth_reachable_inv.
    by eapply reachable_synth_reachable.
  - rewrite <- size_dom.
    change 12%nat with (length (note <$> KEYBOARD_NOTE_MAP)).
    rewrite <- (size_list_to_set (C := gset string)) by apply registry_notes_NoDup.
    apply subseteq_size. intros n [id Hn]%elem_of_dom.
    destruct (reachable_held_inv _ _ Hs _ _ Hn)
      as (i & it & [_ Hit]%at_index_lookup & <- & _).
    apply elem_of_list_to_set, list_elem_of_fmap. exists it. split; [done|].
    by eapply list_elem_of_lookup_2.
Qed.

End Invariants.

Lemma activeKeys_in_table_witness :
  ∃ s, run App_props [KeyDown "KeyU"] initial_state = Some s ∧
       (11%Z ∈ activeKeys s) ∧ (0 ≤ 11 < 12)%Z.
Proof.
  eexists. split; [reflexivity|].
  match goal with |- (_ ∈ activeKeys ?s) ∧ _ =>
    assert (reachable App_props s) as Hs
      by (eapply (run_reachable _ [KeyDown "KeyU"]);
          [apply reachable_init|reflexivity]);
    assert (11%Z ∈ activeKeys s) as Hin
      by (apply elem_of_union_l, elem_of_singleton; reflexivity);
    exact (conj Hin (proj2 (activeKeys_in_table App_props s 11 Hs Hin)))
  end.
Defined.

Lemma sounding_voice_is_held_witness :
  ∃ s, run App_props [PointerDown 4] initial_state = Some s ∧
       ∃ idx item, at_index KEYBOARD_NOTE_MAP idx = Some item ∧
                   note item = "E4" ∧ idx ∈ activeKeys s.
Proof.
  eexists. split; [reflexivity|].
  match goal with |- ∃ idx item, _ ∧ _ ∧ idx ∈ activeKeys ?s =>
    assert (reachable App_props s) as Hs
      by (eapply (run_reachable _ [PointerDown 4]);
          [apply reachable_init|reflexivity]);
    exact (sounding_voice_is_held App_props s 0
             (createOscillator "E4" (noteToFrequency "E4")) Hs eq_refl eq_refl)
  end.
Defined.

Lemma sounding_voices_bounded_witness :
  reachable App_props initial_state ∧
  (size (oscillators (synth initial_state)) ≤ 12)%nat.
Proof.
  split; [apply reachable_init|].
  exact (proj2 (sounding_voices_bounded App_props initial_state (reachable_init _))).
Defined.

(** ** Callbacks and props *)

(** X20.  One event invokes at most one callback, and only together with a
    note of the table and that note's index: [onNoteDown] on a note-down
    event, [onNoteUp] on a note-up event.  Release-all and [ended] invoke
    none, and so does every event when both props are absent. *)
Theorem callbacks_of_an_event (props : Props) (e : Event) (s s' : State) :
  step props e s = Some s' →
  ∃ l, calls s' = calls s ++ l ∧
       (length l ≤ 1)%nat ∧
       Forall (λ c, ∃ idx item,
                 at_index KEYBOARD_NOTE_MAP idx = Some item ∧
                 (c = NoteDown (note item) idx ∧ note_down idx e ∨
                  c = NoteUp (note item) idx ∧ note_up idx e)) l ∧
       (e = GlobalPointerUp ∨ (∃ id, e = Ended id) → l = []) ∧
       (onNoteDown props = false → onNoteUp props = false → l = []).
Proof.
  intros Hstep.
  destruct (step_cases _ _ _ _ Hstep)
    as [[-> _]|[(i & it & Hi & He & ->)|
        [(i & it & s1 & Hi & He & -> & Hor)|
        [[-> ->]|(id & sy & -> & _ & ->)]]]]; cbn [calls].
  - exists []. rewrite app_nil_r. repeat split; [simpl; lia|constructor].
  - unfold call_onNoteDown. destruct (onNoteDown props) eqn:Hd.
    + exists [NoteDown (note it) i]. repeat split; [simpl; lia| | |done].
      * repeat constructor. exists i, it. auto.
      * intros [->|[id ->]]; destruct He.
    + exists []. rewrite app_nil_r. repeat split; [simpl; lia|constructor].
  - assert (calls s' = call_onNoteUp props (note it) i (calls s)) as ->
      by (by destruct Hor as [->| ->]).
    unfold call_onNoteUp. destruct (onNoteUp props) eqn:Hu.
    + exists [NoteUp (note it) i]. repeat split; [simpl; lia| | |done].
      * repeat constructor. exists i, it. auto.
      * intros [->|[id ->]]; destruct He.
    + exists []. rewrite app_nil_r. repeat split; [simpl; lia|constructor].
  - exists []. rewrite app_nil_r. repeat split; [simpl; lia|constructor].
  - exists []. rewrite app_nil_r. repeat split; [simpl; lia|constructor].
Qed.

Lemma callbacks_of_an_event_witness :
  ∃ s', step App_props (PointerDown 6) initial_state = Some s' ∧
        ∃ l, calls s' = calls initial_state ++ l ∧ (length l ≤ 1)%nat.
Proof.
  eexists. split; [reflexivity|].
  destruct (callbacks_of_an_event App_props (PointerDown 6) initial_state _ eq_refl)
    as (l & H1 & H2 & _).
  exists l. split; [exact H1|exact H2].
Defined.

(** X21.  The props do not steer the component: from states with the same
    active set and synthesizer, an event leads, whatever the props, to
    states with the same active set and synthesizer. *)
Theorem props_do_not_steer (props props' : Props) (e : Event) (s t s' : State) :
  activeKeys s = activeKeys t →
  synth s = synth t →
  step props e s = Some s' →
  ∃ t', step props' e t = Some t' ∧
        activeKeys s' = activeKeys t' ∧ synth s' = synth t'.
Proof.
  destruct s as [a sy cs], t as [a' sy' ct]. cbn [activeKeys synth].
  intros <- <- Hstep.
  destruct e as [code|code|idx|idx|idx| |id]; cbn [step] in *.
  - unfold handleKeyDown in *. cbn [activeKeys] in *.
    destruct (_ && _); [|injection Hstep as <-; by eexists].
    destruct (at_index _ _) as [item|]; [|done]. injection Hstep as <-.
    by eexists.
  - unfold handleKeyUp in *.
    destruct (bool_decide _); [|injection Hstep as <-; by eexists].
    destruct (at_index _ _) as [item|]; [|done]. injection Hstep as <-.
    by eexists.
  - unfold handlePointerDown in *.
    destruct (at_index _ _) as [item|]; [|done]. injection Hstep as <-.
    by eexists.
  - unfold handlePointerUp in *.
    destruct (at_index _ _) as [item|]; [|done].
    cbn [mbind option_bind] in *. injection Hstep as <-.
    eexists. split; [reflexivity|].
    destruct (stopsPropagation idx); [done|].
    split; [reflexivity|]. by rewrite !synth_handleGlobalPointerUp.
  - unfold handlePointerUp in *.
    destruct (at_index _ _) as [item|]; [|done]. injection Hstep as <-.
    by eexists.
  - injection Hstep as <-. eexists. split; [reflexivity|].
    split; [reflexivity|]. by rewrite !synth_handleGlobalPointerUp.
  - unfold handleEnded in *. cbn [synth] in *.
    destruct (onended id sy) as [sy1|]; [|done]. injection Hstep as <-.
    by eexists.
Qed.

Lemma props_do_not_steer_witness :
  ∃ s' t', step App_props (KeyDown "KeyT") initial_state = Some s' ∧
           step {| onNoteDown := false; onNoteUp := false |} (KeyDown "KeyT")
                initial_state = Some t' ∧
           activeKeys s' = activeKeys t' ∧ synth s' = synth t'.
Proof.
  eexists.
  destruct (props_do_not_steer App_props {| onNoteDown := false; onNoteUp := false |}
              (KeyDown "KeyT") initial_state initial_state _ eq_refl eq_refl eq_refl)
    as (t' & H1 & H2 & H3).
  exists t'. split; [reflexivity|]. split; [exact H1|]. split; [exact H2|exact H3].
Defined.

(** X22.  The version of the component with the synthesizer does to the
    active set and to the callbacks exactly what the version without it
    does: every key, pointer and release-all step is a step of the older
    version on the state without the synthesizer, and an [ended] event
    touches neither. *)
Theorem without_synth_simulates (props : Props) (e : Event) (s s' : State) :
  step props e s = Some s' →
  match e with
  | Ended _ => forget_synth s' = forget_synth s
  | _ => NoSynth.step props e (forget_synth s) = Some (forget_synth s')
  end.
Proof.
  intros Hstep. destruct e as [code|code|idx|idx|idx| |id];
    cbn [step NoSynth.step] in *.
  - unfold handleKeyDown in Hstep. unfold NoSynth.handleKeyDown.
    cbn [forget_synth NoSynth.activeKeys].
    destruct (_ && _); [|by injection Hstep as <-].
    destruct (at_index _ _) as [item|]; [|done]. by injection Hstep as <-.
  - unfold handleKeyUp in Hstep. unfold NoSynth.handleKeyUp.
    destruct (bool_decide _); [|by injection Hstep as <-].
    destruct (at_index _ _) as [item|]; [|done]. by injection Hstep as <-.
  - unfold handlePointerDown in Hstep. unfold NoSynth.handlePointerDown.
    destruct (at_index _ _) as [item|]; [|done]. by injection Hstep as <-.
  - unfold handlePointerUp in Hstep. unfold NoSynth.handlePointerUp.
    destruct (at_index _ _) as [item|]; [|done].
    cbn [mbind option_bind] in *. injection Hstep as <-.
    by destruct (stopsPropagation idx).
  - unfold handlePointerUp in Hstep. unfold NoSynth.handlePointerUp.
    destruct (at_index _ _) as [item|]; [|done]. by injection Hstep as <-.
  - by injection Hstep as <-.
  - unfold handleEnded in Hstep.
    destruct (onended id (synth s)) as [sy|]; [|done]. by injection Hstep as <-.
Qed.

Lemma without_synth_simulates_witness :
  ∃ s', step App_props (KeyDown "KeyW") initial_state = Some s' ∧
        NoSynth.step App_props (KeyDown "KeyW") (forget_synth initial_state)
        = Some (forget_synth s').
Proof.
  eexists. split; [reflexivity|].
  exact (without_synth_simulates App_props (KeyDown "KeyW") initial_state _ eq_refl).
Defined.

(** ** Release-all *)

Lemma forEach_stop_lookup (l : list NoteDefinition) sy n :
  n ∈ note <$> l →
  oscillators (forEach l (λ key, stop (note key)) sy) !! n = None.
Proof.
  intros Hn. destruct (_ !! n) as [id|] eqn:H; [|done].
  by apply oscillators_stop_all in H as [_ ?].
Qed.

Lemma forEach_stop_absent (l : list NoteDefinition) sy :
  (∀ n, n ∈ note <$> l → oscillators sy !! n = None) →
  forEach l (λ key, stop (note key)) sy = sy.
Proof.
  revert sy. induction l as [|item l IH]; intros sy H; [done|].
  rewrite forEach_cons, stop_absent by (apply H; rewrite fmap_cons; left).
  apply IH. intros n Hn. apply H. rewrite fmap_cons. by right.
Qed.

(** X23.  Release-all is idempotent, in every state: after one sweep no
    note of the table has a voice left, and a second release-all returns
    the same state. *)
Theorem release_all_idempotent (s : State) :
  (∀ item, item ∈ KEYBOARD_NOTE_MAP →
           oscillators (synth (handleGlobalPointerUp s)) !! note item = None) ∧
  handleGlobalPointerUp (handleGlobalPointerUp s) = handleGlobalPointerUp s.
Proof.
  split.
  - intros item Hin. rewrite synth_handleGlobalPointerUp.
    apply forEach_stop_lookup, list_elem_of_fmap. eauto.
  - unfold handleGlobalPointerUp at 1. cbn [calls].
    rewrite forEach_stop_absent; [done|].
    intros n Hn. rewrite synth_handleGlobalPointerUp.
    by apply forEach_stop_lookup.
Qed.

Lemma release_all_idempotent_witness :
  oscillators (synth (handleGlobalPointerUp initial_state)) !! "C4" = None.
Proof.
  refine (proj1 (release_all_idempotent initial_state)
            {| note := "C4"; label := "C"; key := "Q"; type := white |} _).
  apply (list_elem_of_lookup_2 _ 0%nat). reflexivity.
Defined.

(** ** Rendering *)

Lemma at_index_of_nat {A} (l : list A) (i : nat) (x : A) :
  l !! i = Some x → at_index l (Z.of_nat i) = Some x.
Proof.
  intros H. unfold at_index.
  rewrite (proj2 (Z.ltb_ge _ _)) by lia. by rewrite Nat2Z.id.
Qed.

Lemma render_idx s :
  el_idx <$> render s = [0; 2; 4; 5; 7; 9; 11; 1; 3; 6; 8; 10]%Z.
Proof. reflexivity. Qed.

(** X24.  [render] draws every entry of the table exactly once (no black
    key is dropped for want of an offset), each with the labels of its
    entry, the class of its colour and, exactly when its index is in the
    active set, the class [active]; the black keys, and only they, carry a
    [left] offset. *)
Theorem render_draws_the_table (s : State) :
  el_idx <$> render s ≡ₚ seqZ 0 12 ∧
  Forall (λ el, ∃ item,
            at_index KEYBOARD_NOTE_MAP (el_idx el) = Some item ∧
            el_className el
              = ((if decide (type item = white) then "piano-key white"
                  else "piano-key black")
                 ++ (if bool_decide (el_idx el ∈ activeKeys s)
                     then " active" else ""))%string ∧
            el_noteLabel el = label item ∧
            el_ariaLabel el = label item ∧
            el_keyLabel el = key item ∧
            (type item = black ↔ is_Some (el_left el)))
         (render s).
Proof.
  split.
  - rewrite render_idx. apply (bool_decide_unpack _). vm_compute. reflexivity.
  - unfold render.
    change whiteKeys with
      (filter (λ keyObj : NoteDefinition * Z, type keyObj.1 = white)
         (imap (λ idx item, (item, Z.of_nat idx)) KEYBOARD_NOTE_MAP)).
    apply Forall_app. split.
    + apply Forall_fmap, Forall_forall. intros k Hk.
      apply list_elem_of_filter in Hk as [Hw Hk].
      apply list_elem_of_lookup in Hk as [i Hk].
      rewrite list_lookup_imap in Hk.
      destruct (KEYBOARD_NOTE_MAP !! i) as [item|] eqn:Hi; [|done].
      injection Hk as <-. simpl in Hw. exists item.
      cbn [renderWhiteKey el_idx el_className el_noteLabel el_ariaLabel
           el_keyLabel el_left fst snd].
      split; [by apply at_index_of_nat|].
      unfold active_class. rewrite decide_True by done.
      do 4 (split; [done|]). split.
      * intros Hb. rewrite Hw in Hb. discriminate Hb.
      * intros [x Hx]. discriminate Hx.
    + apply Forall_forall. intros el Hel.
      apply list_elem_of_omap in Hel as (k & Hk & Hel).
      apply list_elem_of_filter in Hk as [Hb Hk].
      apply list_elem_of_lookup in Hk as [i Hk].
      rewrite list_lookup_imap in Hk.
      destruct (KEYBOARD_NOTE_MAP !! i) as [item|] eqn:Hi; [|done].
      injection Hk as <-. simpl in Hb. unfold renderBlackKey in Hel.
      cbn [fst snd] in Hel.
      destruct (getBlackKeyOffset (note item)) as [| |q]; [done| |];
        injection Hel as <-; exists item;
        cbn [el_idx el_className el_noteLabel el_ariaLabel el_keyLabel el_left];
        (split; [by apply at_index_of_nat|]);
        unfold active_class;
        (rewrite decide_False by (rewrite Hb; discriminate));
        do 4 (split; [done|]); (split; [by eexists|done]).
Qed.
